(** * hamming-web: phrase neighbours and the layered breadth-first graph

    A shallow embedding of [src/main.py]: the word lists ([load_words]),
    the phrase normaliser ([normalize_phrase], [is_valid_phrase]), the
    neighbour generator ([get_neighbors]) and the breadth-first graph
    builder ([generate_graph]), followed by their properties.

    Python values are modelled as follows.
    - [str] is a list of code points, [list N].  The [str] methods the
      program calls ([lower], [capitalize], [split], [strip], [join],
      slicing and indexing) follow CPython.  Case mapping is written out
      for the code points below 128; above, it consults CPython's Unicode
      tables, which are no part of the repository and are a parameter of
      the model, [unicode_db].
    - a [set] of strings is a [gset (list N)], a [dict] from strings to
      integers a [gmap (list N) Z], the [deque] a [list] used first-in
      first-out, an [int] a [Z].
    - the [networkx.DiGraph] is a record of a node set and an edge set. *)

From Stdlib Require Import ZArith NArith Lia Ascii.
From stdpp Require Import base list strings gmap sets relations sorting.

Local Open Scope Z_scope.
Local Open Scope nat_scope.

(** ** Python's [str] *)

Module PyStr.

Abbreviation str := (list N).

(** A literal of ASCII text, as its code points. *)
Definition py (s : string) : str :=
  N_of_ascii <$> String.list_ascii_of_string s.

(** [c.isspace()]: the 29 code points which [split] and [strip] treat as
    whitespace. *)
Definition isspace (c : N) : bool :=
  ((9 <=? c) && (c <=? 13) || (28 <=? c) && (c <=? 32) ||
   (c =? 0x85) || (c =? 0xA0) || (c =? 0x1680) ||
   (0x2000 <=? c) && (c <=? 0x200A) ||
   (c =? 0x2028) || (c =? 0x2029) || (c =? 0x202F) || (c =? 0x205F) ||
   (c =? 0x3000))%N.

(** Case mapping of a code point below 128. *)
Definition ascii_lower (c : N) : N :=
  if ((65 <=? c) && (c <=? 90))%N then (c + 32)%N else c.

Definition ascii_upper (c : N) : N :=
  if ((97 <=? c) && (c <=? 122))%N then (c - 32)%N else c.

(** The full lower-case and title-case mapping of a code point, given the
    tables for the code points from 128 on. *)
Definition lower_with (tolower : N → list N) (c : N) : list N :=
  if (c <? 128)%N then [ascii_lower c] else tolower c.

Definition title_with (totitle : N → list N) (c : N) : list N :=
  if (c <? 128)%N then [ascii_upper c] else totitle c.

(** Greek capital sigma, small sigma and final small sigma. *)
Definition capital_sigma : N := 0x3A3.
Definition small_sigma : N := 0x3C3.
Definition final_small_sigma : N := 0x3C2.

(** The part of CPython's Unicode database which [str.lower] and
    [str.capitalize] consult: the full lower-case and title-case mappings
    of the code points from 128 on, and the test whether the capital sigma
    at a position of a string is in final position.  The tables are not in
    the repository; they are a parameter, known only through the facts
    below, each of which holds of CPython's tables:
    - a code point of a lower-case mapping is not the capital sigma and is
      its own lower-case mapping, and so are the two small sigmas;
    - the mappings of a non-blank code point are non-empty and free of
      blanks;
    - a blank code point is its own lower-case mapping. *)
Record unicode_db : Type := UnicodeDb {
  tolower : N → list N;
  totitle : N → list N;
  final_sigma : list N → nat → bool;
  tolower_fixed : ∀ c c',
    c' ∈ lower_with tolower c →
    c' ≠ capital_sigma ∧ lower_with tolower c' = [c'];
  sigma_fixed :
    lower_with tolower small_sigma = [small_sigma] ∧
    lower_with tolower final_small_sigma = [final_small_sigma];
  tolower_token : ∀ c,
    isspace c = false →
    lower_with tolower c ≠ [] ∧
    Forall (λ c', isspace c' = false) (lower_with tolower c);
  totitle_token : ∀ c,
    isspace c = false →
    title_with totitle c ≠ [] ∧
    Forall (λ c', isspace c' = false) (title_with totitle c);
  tolower_space : ∀ c, isspace c = true → lower_with tolower c = [c]
}.

(** The lower-case form of the code point [c] at position [i] of [s]
    ([lower_ucs4] in CPython): the capital sigma becomes one of the two
    small sigmas, by its context; any other code point has its mapping. *)
Definition lower_ucs4 (U : unicode_db) (s : str) (i : nat) (c : N) : list N :=
  if (c =? capital_sigma)%N
  then [if final_sigma U s i then final_small_sigma else small_sigma]
  else lower_with (tolower U) c.

(** The lower-case form of the part [rest] of [s] which starts at [i]. *)
Fixpoint lower_at (U : unicode_db) (s : str) (i : nat) (rest : str) : str :=
  match rest with
  | [] => []
  | c :: r => lower_ucs4 U s i c ++ lower_at U s (S i) r
  end.

(** [s.lower()] *)
Definition lower (U : unicode_db) (s : str) : str := lower_at U s 0 s.

(** [s.capitalize()]: the first code point in title case, the rest in
    lower case. *)
Definition capitalize (U : unicode_db) (s : str) : str :=
  match s with
  | [] => []
  | c :: r => title_with (totitle U) c ++ lower_at U s 1 r
  end.

(** [s.split()] with no separator: a left-to-right scan which collects the
    current token in [tok] and emits it at a blank or at the end; empty
    tokens are never emitted. *)
Definition flush (tok : str) : list str :=
  match tok with
  | [] => []
  | _ => [tok]
  end.

Fixpoint split_from (tok : str) (s : str) : list str :=
  match s with
  | [] => flush tok
  | c :: r =>
      if isspace c then flush tok ++ split_from [] r
      else split_from (tok ++ [c]) r
  end.

Definition split (s : str) : list str := split_from [] s.

(** [sep.join(ws)] *)
Fixpoint join (sep : str) (ws : list str) : str :=
  match ws with
  | [] => []
  | [w] => w
  | w :: ws' => w ++ sep ++ join sep ws'
  end.

(** The slices [s[:i]] and [s[i:]], and [s[i]] ([None] stands for the
    [IndexError] of an index past the end). *)
Fixpoint slice_to (i : nat) (s : str) : str :=
  match i, s with
  | S j, c :: r => c :: slice_to j r
  | _, _ => []
  end.

Fixpoint slice_from (i : nat) (s : str) : str :=
  match i, s with
  | S j, _ :: r => slice_from j r
  | _, _ => s
  end.

Fixpoint index (i : nat) (s : str) : option N :=
  match s, i with
  | [], _ => None
  | c :: _, O => Some c
  | _ :: r, S j => index j r
  end.

(** [string.ascii_lowercase] and the space character. *)
Definition ascii_lowercase : str := py "abcdefghijklmnopqrstuvwxyz".

Definition space : N := 32%N.

(** [s.lstrip()], [s.rstrip()] and [s.strip()] with no argument: the
    blanks at the left end, at the right end, at both ends are removed. *)
Fixpoint lstrip (s : str) : str :=
  match s with
  | [] => []
  | c :: r => if isspace c then lstrip r else s
  end.

Fixpoint rstrip (s : str) : str :=
  match s with
  | [] => []
  | c :: r =>
      match rstrip r with
      | [] => if isspace c then [] else [c]
      | r' => c :: r'
      end
  end.

Definition strip (s : str) : str := rstrip (lstrip s).

End PyStr.

Import PyStr.

(** ** The word lists *)

(** One of the two loops of [load_words]:
    [for line in f: valid_words.add(line.strip().lower())], over the lines
    the file iterator yields. *)
Definition add_lines (U : unicode_db) (lines : list str)
    (valid_words : gset str) : gset str :=
  foldl (fun acc line => acc ∪ {[ lower U (strip line) ]}) valid_words lines.

(** [load_words], with the lines of the two cached files as parameters;
    the download and the reading of the files are left out. *)
Definition load_words (U : unicode_db) (words_lines names_lines : list str)
    : gset str :=
  add_lines U names_lines (add_lines U words_lines ∅).

(** ** The phrase normaliser *)

(** [is_valid_phrase]: the loop over [parts] with its early [return False]. *)
Fixpoint all_parts_valid (U : unicode_db) (parts : list str)
    (valid_words : gset str) : bool :=
  match parts with
  | [] => true
  | part :: rest =>
      if decide (lower U part ∈ valid_words)
      then all_parts_valid U rest valid_words
      else false
  end.

Definition is_valid_phrase (U : unicode_db) (phrase : str)
    (valid_words : gset str) : bool :=
  let parts := split phrase in
  match parts with
  | [] => false
  | _ => all_parts_valid U parts valid_words
  end.

Definition normalize_phrase (U : unicode_db) (phrase : str) : str :=
  join [space] (capitalize U <$> split phrase).

(** ** The neighbour generator *)

(** The block repeated after each candidate:
    [if is_valid_phrase(candidate, valid_words):
         neighbors.add(normalize_phrase(candidate))]. *)
Definition add_if_valid (U : unicode_db) (valid_words : gset str)
    (neighbors : gset str) (candidate : str) : gset str :=
  if is_valid_phrase U candidate valid_words
  then neighbors ∪ {[ normalize_phrase U candidate ]}
  else neighbors.

(** 1. Deletions *)
Definition deletions (U : unicode_db) (lower_phrase : str)
    (valid_words : gset str) (neighbors : gset str) : gset str :=
  foldl (fun acc i =>
           add_if_valid U valid_words acc
             (slice_to i lower_phrase ++ slice_from (S i) lower_phrase))
        neighbors (seq 0 (length lower_phrase)).

(** 2. Substitutions *)
Definition substitute_at (U : unicode_db) (lower_phrase : str)
    (valid_words : gset str) (i : nat) (original_char : N)
    (neighbors : gset str) : gset str :=
  foldl (fun acc char =>
           if decide (char = original_char) then acc
           else add_if_valid U valid_words acc
                  (slice_to i lower_phrase ++
                   char :: slice_from (S i) lower_phrase))
        neighbors ascii_lowercase.

Definition substitutions (U : unicode_db) (lower_phrase : str)
    (valid_words : gset str) (neighbors : gset str) : gset str :=
  foldl (fun acc i =>
           match index i lower_phrase with
           | None => acc
           | Some original_char =>
               if decide (original_char = space) then acc
               else substitute_at U lower_phrase valid_words i
                      original_char acc
           end)
        neighbors (seq 0 (length lower_phrase)).

(** 3. Insertions *)
Definition insertions (U : unicode_db) (lower_phrase : str)
    (valid_words : gset str) (neighbors : gset str) : gset str :=
  foldl (fun acc i =>
           foldl (fun acc' char =>
                    add_if_valid U valid_words acc'
                      (slice_to i lower_phrase ++
                       char :: slice_from i lower_phrase))
                 acc ascii_lowercase)
        neighbors (seq 0 (length lower_phrase + 1)).

Definition get_neighbors (U : unicode_db) (phrase : str)
    (valid_words : gset str) : gset str :=
  let lower_phrase := lower U phrase in
  let neighbors :=
    insertions U lower_phrase valid_words
      (substitutions U lower_phrase valid_words
         (deletions U lower_phrase valid_words ∅)) in
  let normalized_start := normalize_phrase U phrase in
  if decide (normalized_start ∈ neighbors)
  then neighbors ∖ {[ normalized_start ]}
  else neighbors.

(** ** The graph builder *)

(** The part of [networkx.DiGraph] the program uses: a set of nodes and a
    set of directed edges; [add_edge] also adds its two end points. *)
Record digraph : Type := DiGraph {
  nodes : gset str;
  edges : gset (str * str)
}.

Definition empty_graph : digraph := DiGraph ∅ ∅.

Definition add_node (n : str) (g : digraph) : digraph :=
  DiGraph (nodes g ∪ {[ n ]}) (edges g).

Definition add_edge (u v : str) (g : digraph) : digraph :=
  DiGraph (nodes g ∪ {[ u ]} ∪ {[ v ]}) (edges g ∪ {[ (u, v) ]}).

(** The variables of the [while] loop.  [expanded] is not a variable of the
    program: it logs, in order, the phrases on which [get_neighbors] has
    been called. *)
Record bfs_state : Type := BfsState {
  G : digraph;
  queue : list (str * Z);
  visited : gmap str Z;
  expanded : list str
}.

(** The body of [for neighbor in neighbors]. *)
Definition visit (current_phrase : str) (current_depth : Z)
    (st : bfs_state) (neighbor : str) : bfs_state :=
  match visited st !! neighbor with
  | None =>
      BfsState (add_edge current_phrase neighbor (G st))
               (queue st ++ [(neighbor, (current_depth + 1)%Z)])
               (<[ neighbor := (current_depth + 1)%Z ]> (visited st))
               (expanded st)
  | Some seen =>
      if decide (seen = (current_depth + 1)%Z)
      then BfsState (add_edge current_phrase neighbor (G st))
                    (queue st) (visited st) (expanded st)
      else st
  end.

(** One iteration of [while queue]; [None] when the queue is empty and the
    loop exits.  A Python set is iterated in an unspecified order; the model
    iterates in the order of [elements]. *)
Definition while_body (U : unicode_db) (depth : Z) (valid_words : gset str)
    (st : bfs_state) : option bfs_state :=
  match queue st with
  | [] => None
  | (current_phrase, current_depth) :: rest =>
      if decide (depth ≤ current_depth)%Z
      then Some (BfsState (G st) rest (visited st) (expanded st))
      else
        let neighbors := get_neighbors U current_phrase valid_words in
        Some (foldl (visit current_phrase current_depth)
                    (BfsState (G st) rest (visited st)
                              (expanded st ++ [current_phrase]))
                    (elements neighbors))
  end.

(** The [while] loop, run for at most [fuel] iterations; [None] when the
    fuel is used up before the queue is empty. *)
Fixpoint while_loop (U : unicode_db) (fuel : nat) (depth : Z)
    (valid_words : gset str) (st : bfs_state) : option bfs_state :=
  match while_body U depth valid_words st with
  | None => Some st
  | Some st' =>
      match fuel with
      | O => None
      | S fuel' => while_loop U fuel' depth valid_words st'
      end
  end.

(** The state on entry to the loop. *)
Definition initial_state (start_phrase : str) : bfs_state :=
  BfsState (add_node start_phrase empty_graph)
           [(start_phrase, 0%Z)]
           {[ start_phrase := 0%Z ]}
           [].

(** [generate_graph], with the loaded word set as a parameter; the result
    is the final state, whose [G] is the graph the program returns. *)
Definition generate_graph_state (U : unicode_db) (fuel : nat)
    (start_phrase : str) (depth : Z) (valid_words : gset str)
    : option bfs_state :=
  let start_phrase := normalize_phrase U start_phrase in
  while_loop U fuel depth valid_words (initial_state start_phrase).

Definition generate_graph (U : unicode_db) (fuel : nat) (start_phrase : str)
    (depth : Z) (valid_words : gset str) : option digraph :=
  G <$> generate_graph_state U fuel start_phrase depth valid_words.

(** ** Vocabulary of the specification *)

(** A token: a non-empty string without a blank. *)
Fixpoint blank_free (s : str) : Prop :=
  match s with
  | [] => True
  | c :: r => isspace c = false ∧ blank_free r
  end.

Definition is_token (w : str) : Prop := w ≠ [] ∧ blank_free w.

(** A string of blanks. *)
Definition blank (s : str) : Prop := Forall (λ c, isspace c = true) s.

(** A string of code points below 128. *)
Definition ascii_only (s : str) : Prop := Forall (λ c, (c < 128)%N) s.



(** One iteration of the loop, as a relation between states. *)
Definition while_step (U : unicode_db) (depth : Z) (valid_words : gset str)
    (st st' : bfs_state) : Prop :=
  while_body U depth valid_words st = Some st'.

(** Every edge goes from a phrase of recorded depth [d] to a phrase of
    recorded depth [d + 1]. *)
Definition layered (st : bfs_state) : Prop :=
  ∀ u v, (u, v) ∈ edges (G st) →
    ∃ d, visited st !! u = Some d ∧ visited st !! v = Some (d + 1)%Z.

(** Every queue entry carries the recorded depth of its phrase. *)
Definition queue_depths (st : bfs_state) : Prop :=
  ∀ p d, (p, d) ∈ queue st → visited st !! p = Some d.

Definition graph_inv (st : bfs_state) : Prop :=
  layered st ∧ queue_depths st ∧ nodes (G st) = dom (visited st).

(** The edge relation of a graph. *)
Definition edge (g : digraph) (u v : str) : Prop := (u, v) ∈ edges g.

(** Every queue entry is less than [n] levels above the depth bound. *)
Definition shallow (depth : Z) (n : nat) (q : list (str * Z)) : Prop :=
  Forall (λ e, Z.to_nat (depth - e.2) < n) q.

(** The phrases expanded so far and the phrases waiting in the queue are
    pairwise distinct, and each of them has a recorded depth. *)
Definition expand_inv (st : bfs_state) : Prop :=
  NoDup (expanded st ++ (queue st).*1) ∧
  ∀ p, p ∈ expanded st ++ (queue st).*1 → p ∈ dom (visited st).

(** A lower-case letter, one of [string.ascii_lowercase]. *)
Definition letter (b : N) : Prop := b ∈ ascii_lowercase.

(** The candidates of the neighbour generator for the text [lp]: the text
    with one character deleted, with one non-space character replaced by a
    different letter, or with one letter inserted. *)
Inductive candidate (lp : str) : str → Prop :=
  | candidate_delete l a r :
      lp = l ++ a :: r → candidate lp (l ++ r)
  | candidate_substitute l a b r :
      lp = l ++ a :: r → a ≠ space → letter b → b ≠ a →
      candidate lp (l ++ b :: r)
  | candidate_insert l b r :
      lp = l ++ r → letter b → candidate lp (l ++ b :: r).

(** [chain U D u n v]: [v] is reached from [u] in [n] neighbour steps. *)
Inductive chain (U : unicode_db) (D : gset str) (u : str)
    : nat → str → Prop :=
  | chain_here : chain U D u 0 u
  | chain_step n v w :
      chain U D u n v → w ∈ get_neighbors U v D → chain U D u (S n) w.

(** *** Vocabulary of the further properties *)

(** [x] is the normal form of a valid candidate for [lp]. *)
Definition produced (U : unicode_db) (lp : str) (D : gset str) (x : str)
    : Prop :=
  ∃ c, candidate lp c ∧ is_valid_phrase U c D = true ∧
       x = normalize_phrase U c.

(** A dictionary entry which a token can match: a non-empty, blank-free,
    lower-case string. *)
Definition usable (U : unicode_db) (w : str) : bool :=
  bool_decide (w ≠ []) &&
  forallb (λ c, negb (isspace c)) w &&
  bool_decide (lower U w = w).

(** The order of the queue: by depth. *)
Definition by_depth (a b : str * Z) : Prop := (a.2 ≤ b.2)%Z.

(** Between iterations: the queue is sorted by depth, no recorded depth
    exceeds a queued depth by more than one, and every recorded depth is
    within the bound. *)
Definition order_inv (depth : Z) (st : bfs_state) : Prop :=
  StronglySorted by_depth (queue st) ∧
  (∀ p m q k, visited st !! p = Some m → (q, k) ∈ queue st → (m ≤ k + 1)%Z) ∧
  (∀ p m, visited st !! p = Some m → (0 ≤ m ≤ Z.max 0 depth)%Z).

(** The same while the phrase of depth [d] is being expanded. *)
Definition order_mid (depth d : Z) (st : bfs_state) : Prop :=
  StronglySorted by_depth (queue st) ∧
  (∀ q k, (q, k) ∈ queue st → (d ≤ k)%Z) ∧
  (∀ p m, visited st !! p = Some m → (0 ≤ m ≤ d + 1)%Z) ∧
  (0 ≤ d < depth)%Z.

(** Every edge is a neighbour step out of an expanded phrase, and every
    phrase but the start has an edge from a phrase one level up. *)
Definition tree_inv (U : unicode_db) (s0 : str) (D : gset str)
    (st : bfs_state) : Prop :=
  (∀ u v, (u, v) ∈ edges (G st) → v ∈ get_neighbors U u D ∧ u ∈ expanded st) ∧
  (∀ v k, visited st !! v = Some k →
     (v = s0 ∧ k = 0%Z) ∨
     ∃ u, (u, v) ∈ edges (G st) ∧ visited st !! u = Some (k - 1)%Z).

(** All neighbours of [u] have a recorded depth, at most one more than
    that of [u], and those exactly one level down have their edge. *)
Definition closed (U : unicode_db) (D : gset str) (st : bfs_state) (u : str)
    : Prop :=
  ∃ du, visited st !! u = Some du ∧
    ∀ nb, nb ∈ get_neighbors U u D →
      ∃ m, visited st !! nb = Some m ∧ (m ≤ du + 1)%Z ∧
           (m = (du + 1)%Z → (u, nb) ∈ edges (G st)).

(** A phrase with a recorded depth has been expanded, waits in the queue,
    or lies at the depth bound. *)
Definition covered (depth : Z) (st : bfs_state) : Prop :=
  ∀ u du, visited st !! u = Some du →
    u ∈ expanded st ∨ u ∈ (queue st).*1 ∨ (depth ≤ du)%Z.

(** Expanded phrases lie below the depth bound. *)
Definition below (depth : Z) (st : bfs_state) : Prop :=
  ∀ u, u ∈ expanded st → ∃ du, visited st !! u = Some du ∧ (du < depth)%Z.

(** Between iterations every expanded phrase is closed; while [cur] is
    being expanded, every other one is. *)
Definition closure_inv (U : unicode_db) (depth : Z) (D : gset str)
    (st : bfs_state) : Prop :=
  covered depth st ∧ below depth st ∧ ∀ u, u ∈ expanded st → closed U D st u.

Definition closure_mid (U : unicode_db) (depth : Z) (D : gset str)
    (cur : str) (st : bfs_state) : Prop :=
  covered depth st ∧ below depth st ∧
  ∀ u, u ∈ expanded st → u = cur ∨ closed U D st u.

(** The invariant of the [while] loop. *)
Definition bfs_inv (U : unicode_db) (s0 : str) (depth : Z) (D : gset str)
    (st : bfs_state) : Prop :=
  graph_inv st ∧ order_inv depth st ∧ tree_inv U s0 D st ∧
  closure_inv U depth D st.

(** A code point which [lower] leaves alone: not the capital sigma, and
    its own lower-case mapping. *)
Definition lower_fixed (U : unicode_db) (c : N) : Prop :=
  c ≠ capital_sigma ∧ lower_with (tolower U) c = [c].

(** The dictionaries of the worked examples. *)
Definition D_cat : gset str :=
  {[ py "cat"; py "bat"; py "cot"; py "car"; py "at"; py "cats" ]}.

Definition D_abc : gset str := {[ py "a"; py "b"; py "c" ]}.

(** *** A fragment of CPython's tables *)

(** CPython's entries for the capital sigma, for U+00DF (sharp s, in title
    case "Ss"), for U+0149 (n preceded by apostrophe, in title case U+02BC
    followed by "N") and for U+017F (long s, in title case "S").  Every
    other code point from 128 on is mapped to itself, as CPython maps
    U+02BC and the code points without case; the examples below consult
    the tables at no other code point. *)
Definition fragment_tolower (c : N) : list N :=
  if (c =? capital_sigma)%N then [small_sigma] else [c].

Definition fragment_totitle (c : N) : list N :=
  if (c =? 0xDF)%N then [0x53; 0x73]%N
  else if (c =? 0x149)%N then [0x2BC; 0x4E]%N
  else if (c =? 0x17F)%N then [0x53]%N
  else [c].

Lemma fragment_tolower_fixed c c' :
  c' ∈ lower_with fragment_tolower c →
  c' ≠ capital_sigma ∧ lower_with fragment_tolower c' = [c'].
Proof.
  unfold lower_with, fragment_tolower, ascii_lower, capital_sigma, small_sigma.
  destruct (N.ltb_spec c 128).
  - intros ->%list_elem_of_singleton.
    destruct (N.leb_spec 65 c), (N.leb_spec c 90); simpl.
    + destruct (N.ltb_spec (c + 32) 128); [|lia].
      destruct (N.leb_spec 65 (c + 32)), (N.leb_spec (c + 32) 90); simpl;
        (split; [lia | done || lia]).
    + destruct (N.ltb_spec c 128); [|lia].
      destruct (N.leb_spec 65 c), (N.leb_spec c 90); simpl;
        (split; [lia | done || lia]).
    + destruct (N.ltb_spec c 128); [|lia].
      destruct (N.leb_spec 65 c), (N.leb_spec c 90); simpl;
        (split; [lia | done || lia]).
    + destruct (N.ltb_spec c 128); [|lia].
      destruct (N.leb_spec 65 c), (N.leb_spec c 90); simpl;
        (split; [lia | done || lia]).
  - destruct (N.eqb_spec c 931).
    + intros ->%list_elem_of_singleton. by split.
    + intros ->%list_elem_of_singleton. split; [done|].
      destruct (N.ltb_spec c 128); [lia|]. by destruct (N.eqb_spec c 931).
Qed.

Lemma fragment_sigma_fixed :
  lower_with fragment_tolower small_sigma = [small_sigma] ∧
  lower_with fragment_tolower final_small_sigma = [final_small_sigma].
Proof. by split. Qed.

Lemma isspace_range c : isspace c = true → (c ≤ 32 ∨ 133 ≤ c)%N.
Proof.
  unfold isspace. rewrite !orb_true_iff, !andb_true_iff, !N.leb_le, !N.eqb_eq. lia.
Qed.

Lemma isspace_false c : (32 < c < 133)%N → isspace c = false.
Proof.
  intros Hc. destruct (isspace c) eqn:H; [|done]. apply isspace_range in H. lia.
Qed.

Lemma fragment_tolower_token c :
  isspace c = false →
  lower_with fragment_tolower c ≠ [] ∧
  Forall (λ c', isspace c' = false) (lower_with fragment_tolower c).
Proof.
  intros Hc. unfold lower_with, fragment_tolower, ascii_lower, capital_sigma.
  destruct (N.ltb_spec c 128).
  - split; [done|]. apply Forall_singleton.
    destruct (N.leb_spec 65 c), (N.leb_spec c 90); simpl; try done.
    apply isspace_false. lia.
  - destruct (N.eqb_spec c 931); (split; [done|]); by apply Forall_singleton.
Qed.

Lemma fragment_totitle_token c :
  isspace c = false →
  title_with fragment_totitle c ≠ [] ∧
  Forall (λ c', isspace c' = false) (title_with fragment_totitle c).
Proof.
  intros Hc. unfold title_with, fragment_totitle, ascii_upper.
  destruct (N.ltb_spec c 128).
  - split; [done|]. apply Forall_singleton.
    destruct (N.leb_spec 97 c), (N.leb_spec c 122); simpl; try done.
    apply isspace_false. lia.
  - destruct (N.eqb_spec c 223); [by split; [|repeat constructor]|].
    destruct (N.eqb_spec c 329); [by split; [|repeat constructor]|].
    destruct (N.eqb_spec c 383); [by split; [|repeat constructor]|].
    split; [done|]. by apply Forall_singleton.
Qed.

Lemma fragment_tolower_space c :
  isspace c = true → lower_with fragment_tolower c = [c].
Proof.
  intros Hc. unfold lower_with, fragment_tolower, ascii_lower, capital_sigma.
  destruct (N.ltb_spec c 128).
  - destruct (N.leb_spec 65 c), (N.leb_spec c 90); simpl; try done.
    rewrite isspace_false in Hc by lia. done.
  - destruct (N.eqb_spec c 931) as [->|]; [done | done].
Qed.

Definition fragment : unicode_db :=
  UnicodeDb fragment_tolower fragment_totitle (λ _ _, false)
    fragment_tolower_fixed fragment_sigma_fixed
    fragment_tolower_token fragment_totitle_token fragment_tolower_space.


(** ** Properties of the [str] model *)

Section StrFacts.

Context (U : unicode_db).

Lemma ascii_lower_spec c :
  (65 ≤ c ≤ 90)%N ∧ ascii_lower c = (c + 32)%N ∨
  ¬ (65 ≤ c ≤ 90)%N ∧ ascii_lower c = c.
Proof.
  unfold ascii_lower. destruct (N.leb_spec 65 c), (N.leb_spec c 90); simpl;
    [left | right ..]; (split; [lia | done]).
Qed.

Lemma ascii_upper_spec c :
  (97 ≤ c ≤ 122)%N ∧ ascii_upper c = (c - 32)%N ∨
  ¬ (97 ≤ c ≤ 122)%N ∧ ascii_upper c = c.
Proof.
  unfold ascii_upper. destruct (N.leb_spec 97 c), (N.leb_spec c 122); simpl;
    [left | right ..]; (split; [lia | done]).
Qed.

Local Ltac ascii_cases :=
  repeat match goal with
         | |- context [ascii_lower ?x] =>
             let H := fresh in
             destruct (ascii_lower_spec x) as [[? H]|[? H]]; rewrite H in *
         | |- context [ascii_upper ?x] =>
             let H := fresh in
             destruct (ascii_upper_spec x) as [[? H]|[? H]]; rewrite H in *
         end; lia.

Lemma ascii_lower_idem c : ascii_lower (ascii_lower c) = ascii_lower c.
Proof. ascii_cases. Qed.

Lemma ascii_upper_idem c : ascii_upper (ascii_upper c) = ascii_upper c.
Proof. ascii_cases. Qed.

Lemma ascii_lower_upper c : ascii_lower (ascii_upper c) = ascii_lower c.
Proof. ascii_cases. Qed.

Lemma ascii_upper_lower c : ascii_upper (ascii_lower c) = ascii_upper c.
Proof. ascii_cases. Qed.

Lemma ascii_lower_lt c : (c < 128)%N → (ascii_lower c < 128)%N.
Proof. intros H. ascii_cases. Qed.

Lemma ascii_upper_lt c : (c < 128)%N → (ascii_upper c < 128)%N.
Proof. intros H. ascii_cases. Qed.

Lemma isspace_capital_sigma : isspace capital_sigma = false.
Proof. reflexivity. Qed.

(** *** [lower] and [capitalize] on any text *)

Lemma lower_ucs4_fixed s i c c' : c' ∈ lower_ucs4 U s i c → lower_fixed U c'.
Proof.
  unfold lower_ucs4. destruct (N.eqb_spec c capital_sigma) as [->|Hc].
  - intros ->%list_elem_of_singleton.
    destruct (sigma_fixed U) as [H1 H2].
    destruct (final_sigma U s i); by split.
  - apply (tolower_fixed U).
Qed.

Lemma lower_at_fixed_out s rest : ∀ i, Forall (lower_fixed U) (lower_at U s i rest).
Proof.
  induction rest as [|c r IH]; intros i; simpl; [constructor|].
  apply Forall_app. split; [|apply IH].
  apply Forall_forall. intros c'. apply lower_ucs4_fixed.
Qed.

Lemma lower_at_id s rest : ∀ i, Forall (lower_fixed U) rest → lower_at U s i rest = rest.
Proof.
  induction rest as [|c r IH]; intros i Hr; [done|].
  apply Forall_cons in Hr as [[Hc Hl] Hr]. simpl. rewrite IH by done.
  unfold lower_ucs4. destruct (N.eqb_spec c capital_sigma); [done|].
  by rewrite Hl.
Qed.

Lemma lower_idem s : lower U (lower U s) = lower U s.
Proof. unfold lower. apply lower_at_id, lower_at_fixed_out. Qed.

Lemma blank_free_Forall s : blank_free s ↔ Forall (λ c, isspace c = false) s.
Proof.
  induction s as [|c r IH]; simpl; [by split; [constructor|]|].
  by rewrite Forall_cons, IH.
Qed.

Lemma blank_free_app s t : blank_free s → blank_free t → blank_free (s ++ t).
Proof. rewrite !blank_free_Forall. intros. by apply Forall_app. Qed.

Lemma lower_ucs4_token s i c :
  isspace c = false →
  lower_ucs4 U s i c ≠ [] ∧ blank_free (lower_ucs4 U s i c).
Proof.
  intros Hc. unfold lower_ucs4. destruct (N.eqb_spec c capital_sigma).
  - split; [done|]. by destruct (final_sigma U s i).
  - rewrite blank_free_Forall. by apply (tolower_token U).
Qed.

Lemma blank_free_lower_at s rest : ∀ i,
  blank_free rest → blank_free (lower_at U s i rest).
Proof.
  induction rest as [|c r IH]; intros i; simpl; [done|].
  intros [Hc Hr]. apply blank_free_app; [by apply lower_ucs4_token | by apply IH].
Qed.

Lemma blank_free_lower s : blank_free s → blank_free (lower U s).
Proof. apply blank_free_lower_at. Qed.

Lemma is_token_lower w : is_token w → is_token (lower U w).
Proof.
  intros [Hne Hbf]. split; [|by apply blank_free_lower].
  destruct w as [|c r]; [done|]. destruct Hbf as [Hc _].
  unfold lower. simpl. destruct (lower_ucs4_token (c :: r) 0 c Hc) as [H _].
  by destruct (lower_ucs4 U (c :: r) 0 c).
Qed.

Lemma is_token_capitalize w : is_token w → is_token (capitalize U w).
Proof.
  destruct w as [|c r]; intros [Hne Hbf]; [done|]. destruct Hbf as [Hc Hr].
  destruct (totitle_token U c Hc) as [Hne' Hbf']. simpl. split.
  - by destruct (title_with (totitle U) c).
  - apply blank_free_app; [by apply blank_free_Forall | by apply blank_free_lower_at].
Qed.

Lemma lower_at_blank s rest : ∀ i, blank rest → lower_at U s i rest = rest.
Proof.
  unfold blank. induction rest as [|c r IH]; intros i Hr; [done|].
  apply Forall_cons in Hr as [Hc Hr]. simpl. rewrite IH by done.
  unfold lower_ucs4. destruct (N.eqb_spec c capital_sigma) as [->|]; [done|].
  by rewrite (tolower_space U).
Qed.

Lemma lower_blank s : blank s → lower U s = s.
Proof. apply lower_at_blank. Qed.

(** *** [lower] and [capitalize] on ASCII text *)

Lemma lower_at_ascii s rest : ∀ i,
  ascii_only rest → lower_at U s i rest = ascii_lower <$> rest.
Proof.
  unfold ascii_only. induction rest as [|c r IH]; intros i Hr; [done|].
  apply Forall_cons in Hr as [Hc Hr]. simpl. rewrite IH by done.
  unfold lower_ucs4, lower_with, capital_sigma.
  destruct (N.eqb_spec c 931); [lia|]. by destruct (N.ltb_spec c 128); [|lia].
Qed.

Lemma lower_ascii s : ascii_only s → lower U s = ascii_lower <$> s.
Proof. apply lower_at_ascii. Qed.

Lemma capitalize_ascii c r :
  ascii_only (c :: r) →
  capitalize U (c :: r) = ascii_upper c :: (ascii_lower <$> r).
Proof.
  intros [Hc Hr]%Forall_cons. simpl. rewrite lower_at_ascii by done.
  unfold title_with. by destruct (N.ltb_spec c 128); [|lia].
Qed.

Lemma ascii_only_fmap_lower s : ascii_only s → ascii_only (ascii_lower <$> s).
Proof.
  unfold ascii_only. intros H. apply Forall_fmap.
  eapply Forall_impl; [exact H|]. intros c. apply ascii_lower_lt.
Qed.

Lemma ascii_only_lower s : ascii_only s → ascii_only (lower U s).
Proof. intros H. rewrite lower_ascii by done. by apply ascii_only_fmap_lower. Qed.

Lemma ascii_only_capitalize s : ascii_only s → ascii_only (capitalize U s).
Proof.
  destruct s as [|c r]; [done|]. intros H. rewrite capitalize_ascii by done.
  apply Forall_cons in H as [Hc Hr].
  constructor; [by apply ascii_upper_lt | by apply ascii_only_fmap_lower].
Qed.

Lemma fmap_ascii_lower_idem (s : str) :
  ascii_lower <$> (ascii_lower <$> s) = ascii_lower <$> s.
Proof.
  rewrite <- list_fmap_compose. apply list_fmap_ext. intros i c _.
  apply ascii_lower_idem.
Qed.

Lemma lower_capitalize s :
  ascii_only s → lower U (capitalize U s) = lower U s.
Proof.
  intros H. rewrite (lower_ascii (capitalize U s)) by by apply ascii_only_capitalize.
  rewrite (lower_ascii s) by done. destruct s as [|c r]; [done|].
  rewrite capitalize_ascii by done. rewrite !fmap_cons.
  by rewrite ascii_lower_upper, fmap_ascii_lower_idem.
Qed.

Lemma capitalize_idem s :
  ascii_only s → capitalize U (capitalize U s) = capitalize U s.
Proof.
  intros H. destruct s as [|c r]; [done|].
  pose proof (ascii_only_capitalize _ H) as H'.
  rewrite (capitalize_ascii c r) in * by done.
  rewrite capitalize_ascii by done.
  by rewrite ascii_upper_idem, fmap_ascii_lower_idem.
Qed.

Lemma capitalize_lower s :
  ascii_only s → capitalize U (lower U s) = capitalize U s.
Proof.
  intros H. pose proof (ascii_only_lower _ H) as H'.
  rewrite lower_ascii in * by done. destruct s as [|c r]; [done|].
  rewrite fmap_cons in *. rewrite !capitalize_ascii by done.
  by rewrite ascii_upper_lower, fmap_ascii_lower_idem.
Qed.

Lemma length_lower s : ascii_only s → length (lower U s) = length s.
Proof. intros H. rewrite lower_ascii by done. apply length_fmap. Qed.

Lemma length_capitalize s : ascii_only s → length (capitalize U s) = length s.
Proof.
  destruct s as [|c r]; [done|]. intros H. rewrite capitalize_ascii by done.
  simpl. by rewrite length_fmap.
Qed.

(** *** [split] and [join] *)

Lemma flush_tokens tok : blank_free tok → Forall is_token (flush tok).
Proof.
  destruct tok as [|c r]; simpl; intros H; [constructor|].
  constructor; [|constructor]. by split.
Qed.

Lemma split_from_tokens s : ∀ tok, blank_free tok → Forall is_token (split_from tok s).
Proof.
  induction s as [|c r IH]; intros tok Htok; simpl.
  - by apply flush_tokens.
  - destruct (isspace c) eqn:Hc.
    + apply Forall_app. split; [by apply flush_tokens | by apply IH].
    + apply IH. apply blank_free_app; [done|]. by simpl.
Qed.

Lemma split_tokens s : Forall is_token (split s).
Proof. by apply split_from_tokens. Qed.

Lemma split_from_blank tok c r :
  isspace c = true → split_from tok (c :: r) = flush tok ++ split_from [] r.
Proof. intros H. simpl. by rewrite H. Qed.

(** Scanning over a blank-free stretch only extends the current token. *)
Lemma split_from_app t : ∀ tok s,
  blank_free t → split_from tok (t ++ s) = split_from (tok ++ t) s.
Proof.
  induction t as [|c r IH]; intros tok s Hbf.
  - by rewrite app_nil_r.
  - destruct Hbf as [Hc Hr]. simpl. rewrite Hc.
    rewrite IH by done. by rewrite <- app_assoc.
Qed.

Lemma split_join ws : Forall is_token ws → split (join [space] ws) = ws.
Proof.
  unfold split. induction ws as [|w ws IH]; intros Hws; [done|].
  apply Forall_cons in Hws as [[Hne Hbf] Hws].
  destruct ws as [|w' ws].
  - simpl. rewrite <- (app_nil_r w) at 1. rewrite split_from_app by done.
    simpl. by destruct w.
  - change (join [space] (w :: w' :: ws))
      with (w ++ [space] ++ join [space] (w' :: ws)).
    rewrite split_from_app by done. cbn [app].
    rewrite split_from_blank by done. rewrite IH by done. by destruct w.
Qed.

Lemma ascii_only_flush tok : ascii_only tok → Forall ascii_only (flush tok).
Proof. destruct tok; simpl; intros H; [constructor | by constructor]. Qed.

Lemma ascii_only_split_from s : ∀ tok,
  ascii_only tok → ascii_only s → Forall ascii_only (split_from tok s).
Proof.
  unfold ascii_only at 2.
  induction s as [|c r IH]; intros tok Htok Hs; simpl.
  - by apply ascii_only_flush.
  - apply Forall_cons in Hs as [Hc Hr]. destruct (isspace c).
    + apply Forall_app. split; [by apply ascii_only_flush|].
      apply IH; [constructor | done].
    + apply IH; [|done]. apply Forall_app. split; [done | by constructor].
Qed.

Lemma ascii_only_split s : ascii_only s → Forall ascii_only (split s).
Proof. intros H. apply ascii_only_split_from; [constructor | done]. Qed.

Lemma ascii_only_join ws : Forall ascii_only ws → ascii_only (join [space] ws).
Proof.
  induction 1 as [|w ws Hw Hws IH]; [constructor|].
  destruct ws as [|w' ws]; [done|].
  change (join [space] (w :: w' :: ws))
    with (w ++ [space] ++ join [space] (w' :: ws)).
  apply Forall_app. split; [done|]. apply Forall_app. split; [|done].
  by constructor.
Qed.

(** *** The phrase normaliser *)

Lemma split_normalize_phrase p :
  split (normalize_phrase U p) = capitalize U <$> split p.
Proof.
  unfold normalize_phrase. apply split_join.
  apply Forall_fmap. eapply Forall_impl; [apply split_tokens|].
  intros w Hw. by apply is_token_capitalize.
Qed.

Lemma ascii_only_normalize_phrase p :
  ascii_only p → ascii_only (normalize_phrase U p).
Proof.
  intros H. apply ascii_only_join, Forall_fmap.
  eapply Forall_impl; [by apply ascii_only_split|].
  intros w. apply ascii_only_capitalize.
Qed.

Lemma normalize_phrase_idem p :
  ascii_only p →
  normalize_phrase U (normalize_phrase U p) = normalize_phrase U p.
Proof.
  intros H. unfold normalize_phrase at 1. rewrite split_normalize_phrase.
  unfold normalize_phrase. f_equal.
  rewrite <- list_fmap_compose. apply Forall_fmap_ext.
  eapply Forall_impl; [by apply ascii_only_split|].
  intros w Hw. simpl. by apply capitalize_idem.
Qed.

Lemma all_parts_valid_spec parts D :
  all_parts_valid U parts D = true ↔ Forall (λ part, lower U part ∈ D) parts.
Proof.
  induction parts as [|part rest IH]; simpl.
  - split; [constructor | done].
  - rewrite Forall_cons. case_decide; [tauto|]. split; [done | tauto].
Qed.

Lemma all_parts_valid_capitalize parts D :
  Forall ascii_only parts →
  all_parts_valid U (capitalize U <$> parts) D = all_parts_valid U parts D.
Proof.
  induction 1 as [|part rest Hpart _ IH]; [done|].
  rewrite fmap_cons. cbn [all_parts_valid]. by rewrite lower_capitalize, IH.
Qed.

Lemma is_valid_phrase_spec p D :
  is_valid_phrase U p D = true ↔
  split p ≠ [] ∧ Forall (λ part, lower U part ∈ D) (split p).
Proof.
  unfold is_valid_phrase. destruct (split p) as [|part rest] eqn:Hs.
  - split; [done | by intros [? _]].
  - rewrite all_parts_valid_spec. split; [by intros ? | by intros [_ ?]].
Qed.

Lemma is_valid_phrase_normalize p D :
  ascii_only p →
  is_valid_phrase U (normalize_phrase U p) D = is_valid_phrase U p D.
Proof.
  intros H. unfold is_valid_phrase. rewrite split_normalize_phrase.
  pose proof (ascii_only_split p H) as Hs.
  destruct (split p) as [|part rest]; [done|].
  rewrite all_parts_valid_capitalize by done. done.
Qed.

(** A phrase of blanks only has no token. *)
Lemma split_blank p : blank p → split p = [].
Proof.
  unfold split, blank. induction p as [|c r IH]; simpl; [done|].
  intros H. apply Forall_cons in H as [Hc Hr]. rewrite Hc. simpl. by apply IH.
Qed.

End StrFacts.


(** ** Properties of the neighbour generator *)

Section NeighborFacts.

Context (U : unicode_db).









Lemma slice_to_from i : ∀ s, slice_to i s ++ slice_from i s = s.
Proof.
  induction i as [|i IH]; intros [|c r]; try done.
  simpl. by rewrite IH.
Qed.

Lemma slice_from_index i : ∀ s a,
  index i s = Some a → slice_from i s = a :: slice_from (S i) s.
Proof.
  induction i as [|i IH]; intros [|c r] a; simpl; try done.
  - by intros [= ->].
  - apply IH.
Qed.

Lemma index_lt i : ∀ s, i < length s → is_Some (index i s).
Proof.
  induction i as [|i IH]; intros [|c r]; simpl; try lia; [by eexists|].
  intros H. apply IH. lia.
Qed.

Lemma slice_to_app l : ∀ t, slice_to (length l) (l ++ t) = l.
Proof.
  induction l as [|c l IH]; intros t; [by destruct t|].
  simpl. by rewrite IH.
Qed.

Lemma slice_from_app l : ∀ t, slice_from (length l) (l ++ t) = t.
Proof.
  induction l as [|c l IH]; intros t; [by destruct t|].
  simpl. by rewrite IH.
Qed.

Lemma slice_from_S_app l a r : slice_from (S (length l)) (l ++ a :: r) = r.
Proof.
  induction l as [|c l IH]; [by destruct r|].
  simpl. simpl in IH. by rewrite IH.
Qed.

Lemma index_app l a r : index (length l) (l ++ a :: r) = Some a.
Proof. induction l as [|c l IH]; [done|]. simpl. by rewrite IH. Qed.


Lemma letter_facts b :
  letter b →
  (b < 128)%N ∧ isspace b = false ∧ ascii_lower b = b ∧
  capital_sigma ≠ b.
Proof.
  unfold letter, ascii_lowercase. intros H. vm_compute in H.
  repeat (apply elem_of_cons in H as [-> |H]; [by split_and!|]).
  by apply elem_of_nil in H.
Qed.

Lemma candidate_ascii lp c : ascii_only lp → candidate lp c → ascii_only c.
Proof.
  unfold ascii_only.
  intros Hlp [l a r ->|l a b r -> _ [Hb _]%letter_facts _|l b r -> [Hb _]%letter_facts];
    apply Forall_app in Hlp as [Hl Hr]; apply Forall_app.
  - apply Forall_cons in Hr as [_ Hr]. by split.
  - apply Forall_cons in Hr as [_ Hr]. split; [done | by constructor].
  - split; [done | by constructor].
Qed.

Lemma candidate_length lp c : candidate lp c → length c ≤ length lp + 1.
Proof.
  intros [l a r ->|l a b r -> _ _ _|l b r -> _]; rewrite !length_app; simpl; lia.
Qed.

(** An invariant of a [for] loop holds after the loop. *)
Lemma foldl_invariant {A B} (P : A → Prop) (f : A → B → A) (l : list B) :
  ∀ a, P a → (∀ a b, b ∈ l → P a → P (f a b)) → P (foldl f a l).
Proof.
  induction l as [|b l IH]; intros a Ha Hstep; simpl; [done|].
  apply IH.
  - apply Hstep; [left | done].
  - intros a' b' Hb'. apply Hstep. by right.
Qed.

(** A loop which only adds to the set: what is in the set afterwards. *)
Lemma elem_of_foldl_add {B} (step : gset str → B → gset str)
    (P : B → str → Prop) (l : list B) :
  (∀ acc b x, x ∈ step acc b ↔ x ∈ acc ∨ P b x) →
  ∀ acc x, x ∈ foldl step acc l ↔ x ∈ acc ∨ ∃ b, b ∈ l ∧ P b x.
Proof.
  intros Hstep. induction l as [|b l IH]; intros acc x; simpl.
  - split; [by left|]. intros [?|(b & Hb & _)]; [done|]. by apply elem_of_nil in Hb.
  - rewrite IH, Hstep. split.
    + intros [[?|?]|(b' & Hb' & ?)].
      * by left.
      * right. exists b. split; [left | done].
      * right. exists b'. split; [by right | done].
    + intros [?|(b' & Hb' & ?)]; [by left; left|].
      apply elem_of_cons in Hb' as [-> |Hb']; [left; by right|].
      right. by exists b'.
Qed.

Lemma elem_of_add_if_valid D acc c x :
  x ∈ add_if_valid U D acc c ↔
  x ∈ acc ∨ (is_valid_phrase U c D = true ∧ x = normalize_phrase U c).
Proof.
  unfold add_if_valid. destruct (is_valid_phrase U c D).
  - rewrite elem_of_union, elem_of_singleton. tauto.
  - split; [by left|]. by intros [?|[? _]].
Qed.

Lemma elem_of_deletions lp D acc x :
  x ∈ deletions U lp D acc ↔
  x ∈ acc ∨ ∃ l a r, lp = l ++ a :: r ∧
                     is_valid_phrase U (l ++ r) D = true ∧
                     x = normalize_phrase U (l ++ r).
Proof.
  unfold deletions.
  rewrite (elem_of_foldl_add _ (λ i x,
    is_valid_phrase U (slice_to i lp ++ slice_from (S i) lp) D = true ∧
    x = normalize_phrase U (slice_to i lp ++ slice_from (S i) lp)))
    by (intros; apply elem_of_add_if_valid).
  apply or_iff_compat_l. split.
  - intros (i & Hi & Hv & ->). apply elem_of_seq in Hi.
    destruct (index_lt i lp) as [a Ha]; [lia|].
    exists (slice_to i lp), a, (slice_from (S i) lp). split_and!; [|done|done].
    by rewrite <- (slice_from_index _ _ _ Ha), slice_to_from.
  - intros (l & a & r & -> & Hv & ->). exists (length l).
    rewrite slice_to_app, slice_from_S_app. split_and!; [|done|done].
    apply elem_of_seq. rewrite length_app. simpl. lia.
Qed.

Lemma elem_of_substitute_at lp D i a acc x :
  x ∈ substitute_at U lp D i a acc ↔
  x ∈ acc ∨ ∃ b, letter b ∧ b ≠ a ∧
    is_valid_phrase U (slice_to i lp ++ b :: slice_from (S i) lp) D = true ∧
    x = normalize_phrase U (slice_to i lp ++ b :: slice_from (S i) lp).
Proof.
  unfold substitute_at.
  rewrite (elem_of_foldl_add _ (λ b x, b ≠ a ∧
    is_valid_phrase U (slice_to i lp ++ b :: slice_from (S i) lp) D = true ∧
    x = normalize_phrase U (slice_to i lp ++ b :: slice_from (S i) lp))).
  - apply or_iff_compat_l. unfold letter. naive_solver.
  - intros acc' b y. case_decide.
    + split; [by left|]. by intros [?|[? _]].
    + rewrite elem_of_add_if_valid. tauto.
Qed.

Lemma elem_of_substitutions lp D acc x :
  x ∈ substitutions U lp D acc ↔
  x ∈ acc ∨ ∃ l a b r, lp = l ++ a :: r ∧ a ≠ space ∧ letter b ∧ b ≠ a ∧
                       is_valid_phrase U (l ++ b :: r) D = true ∧
                       x = normalize_phrase U (l ++ b :: r).
Proof.
  unfold substitutions.
  rewrite (elem_of_foldl_add _ (λ i x, ∃ a b,
    index i lp = Some a ∧ a ≠ space ∧ letter b ∧ b ≠ a ∧
    is_valid_phrase U (slice_to i lp ++ b :: slice_from (S i) lp) D = true ∧
    x = normalize_phrase U (slice_to i lp ++ b :: slice_from (S i) lp))).
  - apply or_iff_compat_l. split.
    + intros (i & Hi & a & b & Ha & Hsp & Hb & Hne & Hv & ->).
      exists (slice_to i lp), a, b, (slice_from (S i) lp). split_and!; try done.
      by rewrite <- (slice_from_index _ _ _ Ha), slice_to_from.
    + intros (l & a & b & r & -> & Hsp & Hb & Hne & Hv & ->).
      exists (length l). rewrite slice_to_app, slice_from_S_app, index_app.
      split; [|by exists a, b].
      apply elem_of_seq. rewrite length_app. simpl. lia.
  - intros acc' i y. destruct (index i lp) as [a|] eqn:Ha.
    + case_decide as Hsp.
      * split; [by left|]. intros [?|(a' & b & [= <-] & ? & _)]; done.
      * rewrite elem_of_substitute_at. apply or_iff_compat_l. split.
        -- intros (b & ? & ? & ? & ?). by exists a, b.
        -- intros (a' & b & [= <-] & ? & ? & ? & ? & ?). by exists b.
    + split; [by left|]. by intros [?|(a' & b & ? & _)].
Qed.

Lemma elem_of_insertions lp D acc x :
  x ∈ insertions U lp D acc ↔
  x ∈ acc ∨ ∃ l b r, lp = l ++ r ∧ letter b ∧
                     is_valid_phrase U (l ++ b :: r) D = true ∧
                     x = normalize_phrase U (l ++ b :: r).
Proof.
  unfold insertions.
  rewrite (elem_of_foldl_add _ (λ i x, ∃ b, letter b ∧
    is_valid_phrase U (slice_to i lp ++ b :: slice_from i lp) D = true ∧
    x = normalize_phrase U (slice_to i lp ++ b :: slice_from i lp))).
  - apply or_iff_compat_l. split.
    + intros (i & Hi & b & Hb & Hv & ->).
      exists (slice_to i lp), b, (slice_from i lp). split_and!; try done.
      by rewrite slice_to_from.
    + intros (l & b & r & -> & Hb & Hv & ->).
      exists (length l). rewrite slice_to_app, slice_from_app.
      split; [|by exists b].
      apply elem_of_seq. rewrite length_app. lia.
  - intros acc' i y.
    rewrite (elem_of_foldl_add _ (λ b x,
      is_valid_phrase U (slice_to i lp ++ b :: slice_from i lp) D = true ∧
      x = normalize_phrase U (slice_to i lp ++ b :: slice_from i lp)))
      by (intros; apply elem_of_add_if_valid).
    apply or_iff_compat_l. unfold letter. naive_solver.
Qed.

Lemma elem_of_generated lp D x :
  x ∈ insertions U lp D (substitutions U lp D (deletions U lp D ∅)) ↔
  produced U lp D x.
Proof.
  rewrite elem_of_insertions, elem_of_substitutions, elem_of_deletions.
  unfold produced. split.
  - intros [[[Hx|(l & a & r & Hlp & Hv & ->)]
            |(l & a & b & r & Hlp & Hsp & Hb & Hne & Hv & ->)]
            |(l & b & r & Hlp & Hb & Hv & ->)].
    + by apply not_elem_of_empty in Hx.
    + eexists. split_and!; [by eapply candidate_delete | done | done].
    + eexists. split_and!; [by eapply candidate_substitute | done | done].
    + eexists. split_and!; [by eapply candidate_insert | done | done].
  - intros (c & Hc & Hv & ->).
    destruct Hc as [l a r Hlp|l a b r Hlp Hsp Hb Hne|l b r Hlp Hb].
    + left. left. right. by exists l, a, r.
    + left. right. by exists l, a, b, r.
    + right. by exists l, b, r.
Qed.

Lemma elem_of_get_neighbors p D x :
  x ∈ get_neighbors U p D ↔
  x ≠ normalize_phrase U p ∧ produced U (lower U p) D x.
Proof.
  unfold get_neighbors. cbv zeta. case_decide as Hin.
  - rewrite elem_of_difference, elem_of_singleton, elem_of_generated. tauto.
  - rewrite elem_of_generated. split; [|tauto].
    intros Hx. split; [|done]. intros ->. by apply Hin, elem_of_generated.
Qed.


(** On ASCII text the neighbours are ASCII, in normal form and valid. *)
Lemma get_neighbors_ascii p D x :
  ascii_only p → x ∈ get_neighbors U p D →
  ascii_only x ∧ normalize_phrase U x = x ∧ is_valid_phrase U x D = true.
Proof.
  intros Hp [_ (c & Hc & Hv & ->)]%elem_of_get_neighbors.
  assert (ascii_only c) as Hac
    by (eapply candidate_ascii; [by apply ascii_only_lower | done]).
  split_and!.
  - by apply ascii_only_normalize_phrase.
  - by apply normalize_phrase_idem.
  - by rewrite is_valid_phrase_normalize.
Qed.

End NeighborFacts.


(** ** Properties of the graph builder *)

Section GraphFacts.

Context (U : unicode_db).


Lemma visit_visited cur d st nb : visited st ⊆ visited (visit cur d st nb).
Proof.
  unfold visit. destruct (visited st !! nb) as [seen|] eqn:Hnb.
  - by case_decide.
  - simpl. by apply insert_subseteq.
Qed.

Lemma foldl_visit_visited cur d l st :
  visited st ⊆ visited (foldl (visit cur d) st l).
Proof.
  apply (foldl_invariant (λ s, visited st ⊆ visited s)); [done|].
  intros s nb _ Hs. etrans; [exact Hs | apply visit_visited].
Qed.

Lemma while_body_visited depth D st st' :
  while_step U depth D st st' → visited st ⊆ visited st'.
Proof.
  unfold while_step, while_body. destruct (queue st) as [|[cur d] rest]; [done|].
  case_decide; intros [= <-]; [done|].
  etrans; [|apply foldl_visit_visited]. done.
Qed.

Lemma rtc_while_step_visited depth D st st' :
  rtc (while_step U depth D) st st' → visited st ⊆ visited st'.
Proof.
  induction 1 as [|a b c Hab _ IH]; [done|].
  etrans; [by eapply while_body_visited | done].
Qed.

Lemma while_loop_rtc depth D fuel : ∀ st st',
  while_loop U fuel depth D st = Some st' → rtc (while_step U depth D) st st'.
Proof.
  induction fuel as [|fuel IH]; intros st st'; simpl;
    destruct (while_body U depth D st) as [st1|] eqn:Hb; try done.
  - intros [= <-]. done.
  - intros H. eapply rtc_l; [exact Hb | by apply IH].
  - intros [= <-]. done.
Qed.

Lemma while_loop_mono depth D fuel : ∀ fuel' st st',
  while_loop U fuel depth D st = Some st' → fuel ≤ fuel' →
  while_loop U fuel' depth D st = Some st'.
Proof.
  induction fuel as [|fuel IH]; intros fuel' st st'; simpl;
    destruct (while_body U depth D st) as [st1|] eqn:Hb; try done.
  - intros H _. destruct fuel'; simpl; by rewrite Hb.
  - intros H Hle. destruct fuel' as [|fuel']; [lia|]. simpl. rewrite Hb.
    apply IH; [done | lia].
  - intros H _. destruct fuel'; simpl; by rewrite Hb.
Qed.

Lemma visit_inv cur d st nb :
  visited st !! cur = Some d → graph_inv st →
  graph_inv (visit cur d st nb) ∧ visited (visit cur d st nb) !! cur = Some d.
Proof.
  intros Hcur (Hlay & Hq & Hn).
  split; [|by eapply lookup_weaken; [exact Hcur | apply visit_visited]].
  assert (cur ∈ dom (visited st)) as Hcurdom by (apply elem_of_dom; eauto).
  unfold visit. destruct (visited st !! nb) as [seen|] eqn:Hnb.
  - case_decide as Hseen; [|done]. subst seen.
    assert (nb ∈ dom (visited st)) as Hnbdom by (apply elem_of_dom; eauto).
    split_and!; simpl.
    + intros u v [Huv | Huv]%elem_of_union; [by apply Hlay|].
      apply elem_of_singleton in Huv as [= -> ->]. by exists d.
    + done.
    + rewrite Hn. set_solver.
  - assert (visited st ⊆ <[nb := (d + 1)%Z]> (visited st)) as Hsub
      by by apply insert_subseteq.
    split_and!; simpl.
    + intros u v [Huv | Huv]%elem_of_union.
      * destruct (Hlay u v Huv) as (k & Hu & Hv). exists k.
        split; eapply lookup_weaken; eauto.
      * apply elem_of_singleton in Huv as [= -> ->]. exists d.
        split; [by eapply lookup_weaken | apply lookup_insert_eq].
    + intros p k [Hp | Hp]%elem_of_app.
      * eapply lookup_weaken; [by apply Hq | done].
      * apply list_elem_of_singleton in Hp as [= -> ->]. apply lookup_insert_eq.
    + rewrite dom_insert_L, Hn. set_solver.
Qed.

Lemma while_body_inv depth D st st' :
  graph_inv st → while_step U depth D st st' → graph_inv st'.
Proof.
  intros (Hlay & Hq & Hn). unfold while_step, while_body.
  destruct (queue st) as [|[cur d] rest] eqn:Hqueue; [done|].
  assert (visited st !! cur = Some d) as Hcur by (apply Hq; rewrite Hqueue; left).
  assert (graph_inv (BfsState (G st) rest (visited st) (expanded st))) as H0.
  { split_and!; simpl; [done | | done].
    intros p k Hp. apply Hq. rewrite Hqueue. by right. }
  case_decide; intros [= <-]; [done|].
  apply (foldl_invariant (λ s, graph_inv s ∧ visited s !! cur = Some d)).
  - split; [|done]. destruct H0 as (? & ? & ?). by split_and!.
  - intros s nb _ [Hs Hc]. by apply visit_inv.
Qed.

Lemma rtc_while_step_inv depth D st st' :
  rtc (while_step U depth D) st st' → graph_inv st → graph_inv st'.
Proof.
  induction 1 as [|a b c Hab _ IH]; [done|].
  intros Ha. apply IH. by eapply while_body_inv.
Qed.

Lemma initial_state_inv start : graph_inv (initial_state start).
Proof.
  split_and!; simpl.
  - intros u v Huv. set_solver.
  - intros p d Hp. apply list_elem_of_singleton in Hp as [= -> ->].
    apply lookup_singleton_eq.
  - rewrite dom_singleton_L. set_solver.
Qed.

(** Along a path of a layered graph the recorded depth strictly grows. *)
Lemma layered_path st u v :
  layered st → tc (edge (G st)) u v →
  ∃ du dv, visited st !! u = Some du ∧ visited st !! v = Some dv ∧ (du < dv)%Z.
Proof.
  intros Hlay. induction 1 as [a b Hab | a b c Hab _ IH].
  - destruct (Hlay a b Hab) as (d & Ha & Hb). exists d, (d + 1)%Z.
    split_and!; [done | done | lia].
  - destruct (Hlay a b Hab) as (d & Ha & Hb).
    destruct IH as (db & dc & Hb' & Hc & Hlt).
    exists d, dc. split_and!; [done | done |].
    rewrite Hb in Hb'. injection Hb' as <-. lia.
Qed.

(** *** Termination *)

Lemma while_loop_step depth D fuel st st1 :
  while_body U depth D st = Some st1 →
  while_loop U (S fuel) depth D st = while_loop U fuel depth D st1.
Proof. intros H. simpl. by rewrite H. Qed.

(** The loop body only appends to the queue, and what [visit] appends is
    one level below the phrase being expanded. *)
Lemma foldl_visit_queue cur d l : ∀ st,
  ∃ new, queue (foldl (visit cur d) st l) = queue st ++ new ∧
         Forall (λ e, e.2 = (d + 1)%Z) new.
Proof.
  induction l as [|nb l IH]; intros st; simpl.
  - exists []. by rewrite app_nil_r.
  - destruct (IH (visit cur d st nb)) as (new & Hq & Hnew). rewrite Hq.
    unfold visit. destruct (visited st !! nb) as [seen|].
    + exists new. by case_decide.
    + simpl. exists ((nb, (d + 1)%Z) :: new). rewrite <- app_assoc.
      split; [done|]. by constructor.
Qed.

Lemma while_loop_terminates depth D n : ∀ st,
  shallow depth n (queue st) → ∃ fuel st', while_loop U fuel depth D st = Some st'.
Proof.
  induction n as [|n IHn]; intros st Hst.
  - destruct (queue st) as [|e q] eqn:Hq.
    + exists 0, st. simpl. unfold while_body. by rewrite Hq.
    + apply Forall_cons in Hst as [He _]. lia.
  - assert (∀ q1 q2 s, queue s = q1 ++ q2 →
              shallow depth (S n) q1 → shallow depth n q2 →
              ∃ fuel s', while_loop U fuel depth D s = Some s') as Hsplit.
    { induction q1 as [|[cur d] q1 IHq]; intros q2 s Hq H1 H2.
      - apply IHn. by rewrite Hq.
      - apply Forall_cons in H1 as [Hd H1]. simpl in Hd.
        destruct (while_body U depth D s) as [s1|] eqn:Hbody.
        2:{ exists 0, s. simpl. by rewrite Hbody. }
        assert (∃ fuel s', while_loop U fuel depth D s1 = Some s') as (f & s' & Hf).
        { unfold while_body in Hbody. rewrite Hq in Hbody. simpl in Hbody.
          case_decide as Hskip; injection Hbody as <-.
          - by apply (IHq q2).
          - destruct (foldl_visit_queue cur d
                        (elements (get_neighbors U cur D))
                        (BfsState (G s) (q1 ++ q2) (visited s)
                                  (expanded s ++ [cur])))
              as (new & Hnew & Hlevel).
            simpl in Hnew.
            apply (IHq (q2 ++ new)); [by rewrite Hnew, <- app_assoc | done |].
            apply Forall_app. split; [done|].
            eapply Forall_impl; [exact Hlevel|].
            intros [p k] Hk. simpl in *. subst k. lia. }
        exists (S f), s'. by rewrite (while_loop_step _ _ _ _ s1). }
    apply (Hsplit (queue st) []); [by rewrite app_nil_r | done | constructor].
Qed.

(** *** Each phrase is expanded at most once *)

Lemma visit_expand_inv cur d st nb :
  expand_inv st → expand_inv (visit cur d st nb).
Proof.
  intros [Hnd Hdom]. unfold visit.
  destruct (visited st !! nb) as [seen|] eqn:Hnb; [by case_decide|].
  assert (nb ∉ dom (visited st)) as Hfresh by by apply not_elem_of_dom.
  split; simpl.
  - rewrite fmap_app, app_assoc. simpl. apply NoDup_app. split_and!.
    + done.
    + intros p Hp Hp'. apply list_elem_of_singleton in Hp' as ->. auto.
    + apply NoDup_singleton.
  - intros p Hp. rewrite dom_insert_L. rewrite fmap_app, app_assoc in Hp.
    apply elem_of_app in Hp as [Hp | Hp].
    + apply elem_of_union_r. by apply Hdom.
    + apply list_elem_of_singleton in Hp as ->. set_solver.
Qed.

Lemma while_body_expand_inv depth D st st' :
  expand_inv st → while_step U depth D st st' → expand_inv st'.
Proof.
  intros [Hnd Hdom]. unfold while_step, while_body.
  destruct (queue st) as [|[cur d] rest] eqn:Hq; [done|].
  rewrite fmap_cons in Hnd, Hdom. simpl in Hnd, Hdom.
  case_decide; intros [= <-].
  - split; simpl.
    + rewrite <- Permutation_middle in Hnd. by apply NoDup_cons in Hnd as [_ ?].
    + intros p Hp. apply Hdom. rewrite <- Permutation_middle. by right.
  - apply (foldl_invariant expand_inv).
    + split; simpl; rewrite <- app_assoc; done.
    + intros s nb _ Hs. by apply visit_expand_inv.
Qed.

Lemma rtc_while_step_expand_inv depth D st st' :
  rtc (while_step U depth D) st st' → expand_inv st → expand_inv st'.
Proof.
  induction 1 as [|a b c Hab _ IH]; [done|].
  intros Ha. apply IH. by eapply while_body_expand_inv.
Qed.

Lemma initial_state_expand_inv start : expand_inv (initial_state start).
Proof.
  split; simpl.
  - apply NoDup_singleton.
  - intros p Hp. apply list_elem_of_singleton in Hp as ->.
    rewrite dom_singleton_L. set_solver.
Qed.

Lemma generate_graph_mono fuel fuel' start depth D g :
  generate_graph U fuel start depth D = Some g → fuel ≤ fuel' →
  generate_graph U fuel' start depth D = Some g.
Proof.
  unfold generate_graph, generate_graph_state. intros H Hle.
  destruct (while_loop U fuel depth D (initial_state (normalize_phrase U start)))
    as [st|] eqn:Hst; [|done].
  by rewrite (while_loop_mono _ _ _ _ _ _ Hst Hle).
Qed.




Lemma visit_edges cur d st nb : edges (G st) ⊆ edges (G (visit cur d st nb)).
Proof.
  unfold visit. destruct (visited st !! nb) as [seen|]; [case_decide|]; simpl; set_solver.
Qed.

Lemma visit_expanded cur d st nb : expanded (visit cur d st nb) = expanded st.
Proof. unfold visit. destruct (visited st !! nb) as [seen|]; [case_decide|]; done. Qed.

Lemma foldl_visit_edges cur d l st :
  edges (G st) ⊆ edges (G (foldl (visit cur d) st l)).
Proof.
  apply (foldl_invariant (λ s, edges (G st) ⊆ edges (G s))); [done|].
  intros s nb _ Hs. etrans; [exact Hs | apply visit_edges].
Qed.

Lemma visit_order_mid depth cur d st nb :
  queue_depths st → order_mid depth d st → order_mid depth d (visit cur d st nb).
Proof.
  intros Hq (Hsort & Hge & Hle & Hd). unfold visit.
  destruct (visited st !! nb) as [seen|] eqn:Hnb; [by case_decide|].
  split; [|split; [|split; [|done]]]; simpl.
  - apply StronglySorted_app. split_and!; [|done|repeat constructor].
    intros [q k] x2 Hin ->%list_elem_of_singleton. unfold by_depth. simpl.
    apply Hq in Hin. apply Hle in Hin. lia.
  - intros q k [Hin| [= -> ->]%list_elem_of_singleton]%elem_of_app; [by eapply Hge | lia].
  - intros p m. rewrite lookup_insert. case_decide; [intros [= <-]; lia | apply Hle].
Qed.

Lemma visit_tree_inv s0 D cur d st nb :
  visited st !! cur = Some d → cur ∈ expanded st → nb ∈ get_neighbors U cur D →
  tree_inv U s0 D st → tree_inv U s0 D (visit cur d st nb).
Proof.
  intros Hcur Hexp Hnb [Hedge Hparent].
  pose proof (visit_visited cur d st nb) as Hsub.
  pose proof (visit_edges cur d st nb) as Hesub.
  assert (∀ v k, visited st !! v = Some k →
            (v = s0 ∧ k = 0%Z) ∨
            ∃ u, (u, v) ∈ edges (G (visit cur d st nb)) ∧
                 visited (visit cur d st nb) !! u = Some (k - 1)%Z) as Hold.
  { intros v k Hv. destruct (Hparent v k Hv) as [?|(u & Hu & Hdu)]; [by left|].
    right. exists u. split; [by apply Hesub | by eapply lookup_weaken]. }
  revert Hsub Hesub Hold. unfold visit.
  destruct (visited st !! nb) as [seen|] eqn:Hseen; [case_decide|]; simpl;
    intros Hsub Hesub Hold; try done.
  - split; simpl; [|done].
    intros u v [Huv| [= -> ->]%elem_of_singleton]%elem_of_union; [by apply Hedge | done].
  - split; simpl.
    + intros u v [Huv| [= -> ->]%elem_of_singleton]%elem_of_union; [by apply Hedge | done].
    + intros v k. rewrite lookup_insert. case_decide as Hv; [|apply Hold].
      subst v. intros [= <-]. right. exists cur. split; [set_solver|].
      rewrite lookup_insert_ne by congruence. rewrite Hcur. f_equal. lia.
Qed.

Lemma closed_weaken D st st' u :
  visited st ⊆ visited st' → edges (G st) ⊆ edges (G st') →
  closed U D st u → closed U D st' u.
Proof.
  intros Hv He (du & Hu & Hnb). exists du. split; [by eapply lookup_weaken|].
  intros nb Hin. destruct (Hnb nb Hin) as (m & Hm & Hle & Hedge).
  exists m. split_and!; [by eapply lookup_weaken | done | intros ?; by apply He, Hedge].
Qed.

Lemma visit_closure_mid depth D cur d st nb :
  closure_mid U depth D cur st → closure_mid U depth D cur (visit cur d st nb).
Proof.
  intros (Hcov & Hbel & Hcl).
  pose proof (visit_visited cur d st nb) as Hsub.
  pose proof (visit_edges cur d st nb) as Hesub.
  split_and!.
  - revert Hsub Hesub. unfold visit.
    destruct (visited st !! nb) as [seen|] eqn:Hseen; [by case_decide|]. simpl.
    intros _ _ u du. simpl. rewrite lookup_insert. rewrite fmap_app. case_decide as Hu.
    + subst u. intros _. right. left. apply elem_of_app. right. simpl. left.
    + intros Hdu. destruct (Hcov u du Hdu) as [?|[?|?]]; [by left | | by right; right].
      right. left. apply elem_of_app. by left.
  - intros u. rewrite visit_expanded. intros Hu.
    destruct (Hbel u Hu) as (du & Hdu & Hlt). exists du.
    split; [by eapply lookup_weaken | done].
  - intros u. rewrite visit_expanded. intros Hu.
    destruct (Hcl u Hu) as [?|Hc]; [by left|]. right. by eapply closed_weaken.
Qed.

Lemma visit_bound cur d st nb :
  (∀ p m, visited st !! p = Some m → (m ≤ d + 1)%Z) →
  ∀ p m, visited (visit cur d st nb) !! p = Some m → (m ≤ d + 1)%Z.
Proof.
  intros Hb p m. unfold visit.
  destruct (visited st !! nb) as [seen|] eqn:Hseen; [case_decide; apply Hb|]. simpl.
  rewrite lookup_insert. case_decide; [intros [= <-]; lia | apply Hb].
Qed.

Lemma visit_covers cur d st nb :
  (∀ p m, visited st !! p = Some m → (m ≤ d + 1)%Z) →
  ∃ m, visited (visit cur d st nb) !! nb = Some m ∧ (m ≤ d + 1)%Z ∧
       (m = (d + 1)%Z → (cur, nb) ∈ edges (G (visit cur d st nb))).
Proof.
  intros Hb. unfold visit. destruct (visited st !! nb) as [seen|] eqn:Hseen.
  - exists seen. case_decide as Hs; simpl.
    + split_and!; [done | lia | intros _; set_solver].
    + split_and!; [done | by eapply Hb | done].
  - exists (d + 1)%Z. simpl. split_and!; [apply lookup_insert_eq | lia | intros _; set_solver].
Qed.

Lemma foldl_visit_covers cur d l : ∀ st,
  (∀ p m, visited st !! p = Some m → (m ≤ d + 1)%Z) →
  ∀ nb, nb ∈ l →
    ∃ m, visited (foldl (visit cur d) st l) !! nb = Some m ∧ (m ≤ d + 1)%Z ∧
         (m = (d + 1)%Z → (cur, nb) ∈ edges (G (foldl (visit cur d) st l))).
Proof.
  induction l as [|a l IH]; intros st Hb nb Hin; [by apply elem_of_nil in Hin|].
  simpl. apply elem_of_cons in Hin as [-> |Hin].
  - destruct (visit_covers cur d st a Hb) as (m & Hm & Hle & He).
    exists m. split_and!; [|done|].
    + eapply lookup_weaken; [exact Hm | apply foldl_visit_visited].
    + intros Heq. by apply foldl_visit_edges, He.
  - apply IH; [by apply visit_bound | done].
Qed.

Lemma initial_state_bfs_inv s0 depth D : bfs_inv U s0 depth D (initial_state s0).
Proof.
  split_and!.
  - apply initial_state_inv.
  - split_and!; simpl.
    + repeat constructor.
    + intros p m q k [<- <-]%lookup_singleton_Some [= -> ->]%list_elem_of_singleton. lia.
    + intros p m [<- <-]%lookup_singleton_Some. lia.
  - split; simpl.
    + intros u v Huv. set_solver.
    + intros v k [<- <-]%lookup_singleton_Some. by left.
  - split_and!; simpl.
    + intros u du. simpl. intros [<- <-]%lookup_singleton_Some. right. left. simpl. left.
    + intros u Hu. by apply elem_of_nil in Hu.
    + intros u Hu. by apply elem_of_nil in Hu.
Qed.

Lemma while_body_bfs_inv s0 depth D st st' :
  bfs_inv U s0 depth D st → while_step U depth D st st' → bfs_inv U s0 depth D st'.
Proof.
  intros (Hg & (Hsort & Hbound & Hrange) & Ht & (Hcov & Hbel & Hcl)) Hstep.
  split; [by eapply while_body_inv|].
  destruct Hg as (Hlay & Hq & Hn). revert Hstep. unfold while_step, while_body.
  destruct (queue st) as [|[cur d] rest] eqn:Hqueue; [done|].
  assert (visited st !! cur = Some d) as Hcur by (apply Hq; rewrite Hqueue; left).
  apply StronglySorted_cons in Hsort as [Hhead Hsort].
  assert (∀ q k, (q, k) ∈ rest → (d ≤ k)%Z) as Hge.
  { intros q k Hin. rewrite Forall_forall in Hhead. apply (Hhead _ Hin). }
  assert (∀ p m, visited st !! p = Some m → (0 ≤ m ≤ d + 1)%Z) as Hle.
  { intros p m Hp. split; [by eapply Hrange|]. eapply Hbound; [exact Hp | left]. }
  case_decide as Hskip; intros [= <-].
  - split_and!; simpl.
    + split_and!; simpl; [done | | done].
      intros p m q k Hp Hin. apply Hle in Hp. apply Hge in Hin. lia.
    + done.
    + split_and!; simpl; [|done|done].
      intros u du Hu. destruct (Hcov u du Hu) as [?|[Hin|?]]; [by left | | by right; right].
      rewrite Hqueue, fmap_cons in Hin. apply elem_of_cons in Hin as [-> |Hin].
      * right. right. simpl in Hu. rewrite Hcur in Hu. by injection Hu as <-.
      * right. by left.
  - set (st0 := BfsState (G st) rest (visited st) (expanded st ++ [cur])).
    set (l := elements (get_neighbors U cur D)).
    assert (graph_inv st0) as Hg0.
    { split_and!; simpl; [done | | done].
      intros p k Hp. apply Hq. rewrite Hqueue. by right. }
    assert (∀ s, graph_inv s ∧ visited s !! cur = Some d ∧ order_mid depth d s ∧
                 tree_inv U s0 D s ∧ cur ∈ expanded s ∧ closure_mid U depth D cur s →
                 s = foldl (visit cur d) st0 l →
                 (∀ nb, nb ∈ l → ∃ m, visited s !! nb = Some m ∧ (m ≤ d + 1)%Z ∧
                     (m = (d + 1)%Z → (cur, nb) ∈ edges (G s))) →
                 order_inv depth s ∧ tree_inv U s0 D s ∧ closure_inv U depth D s) as Hfinish.
    { intros s ((_ & Hq' & _) & Hcur' & (Hs1 & Hs2 & Hs3 & Hs4) & Ht' & _ &
                (Hc1 & Hc2 & Hc3)) _ Hcovers.
      unfold order_inv, closure_inv. split_and!; try done.
      - intros p m q k Hp Hin. apply Hs3 in Hp. apply Hs2 in Hin. lia.
      - intros p m Hp. apply Hs3 in Hp. lia.
      - intros u Hu. destruct (Hc3 u Hu) as [-> |?]; [|done].
        exists d. split; [done|]. intros nb Hnb. apply Hcovers.
        unfold l. by apply elem_of_elements. }
    apply (Hfinish (foldl (visit cur d) st0 l)); [|done|].
    + apply (foldl_invariant (λ s, graph_inv s ∧ visited s !! cur = Some d ∧
               order_mid depth d s ∧ tree_inv U s0 D s ∧ cur ∈ expanded s ∧
               closure_mid U depth D cur s)).
      * assert (order_mid depth d st0) as Ho0.
        { unfold order_mid. simpl. split; [done|]. split; [done|]. split; [done|].
          pose proof (Hle cur d Hcur). lia. }
        assert (tree_inv U s0 D st0) as Ht0.
        { destruct Ht as [Ht1 Ht2]. split; simpl; [|done].
          intros u v Huv. destruct (Ht1 u v Huv) as [? ?]. split; [done|].
          apply elem_of_app. by left. }
        assert (cur ∈ expanded st0) as He0.
        { simpl. apply elem_of_app. right. left. }
        assert (closure_mid U depth D cur st0) as Hc0.
        { unfold closure_mid. split; [|split].
          - intros u du Hu. simpl in *. destruct (Hcov u du Hu) as [?|[Hin|?]].
            + left. apply elem_of_app. by left.
            + rewrite Hqueue, fmap_cons in Hin. apply elem_of_cons in Hin as [-> |Hin].
              * left. apply elem_of_app. right. left.
              * right. by left.
            + by right; right.
          - intros u. simpl.
            intros [Hu| ->%list_elem_of_singleton]%elem_of_app; [by apply Hbel|].
            exists d. split; [done | lia].
          - intros u. simpl.
            intros [Hu| ->%list_elem_of_singleton]%elem_of_app; [|by left].
            right. by apply Hcl. }
        exact (conj Hg0 (conj Hcur (conj Ho0 (conj Ht0 (conj He0 Hc0))))).
      * intros s nb Hnb (Hgs & Hcs & Hos & Hts & Hes & Hcls).
        destruct (visit_inv cur d s nb Hcs Hgs) as [Hgs' Hcs'].
        split; [done|]. split; [done|]. split; [|split; [|split]].
        -- apply visit_order_mid; [apply Hgs | done].
        -- apply visit_tree_inv; try done. unfold l in Hnb. by apply elem_of_elements in Hnb.
        -- by rewrite visit_expanded.
        -- by apply visit_closure_mid.
    + apply foldl_visit_covers. simpl. intros p m Hp. apply Hle in Hp. lia.
Qed.

Lemma rtc_while_step_bfs_inv s0 depth D st st' :
  rtc (while_step U depth D) st st' → bfs_inv U s0 depth D st → bfs_inv U s0 depth D st'.
Proof.
  induction 1 as [|a b c Hab _ IH]; [done|].
  intros Ha. apply IH. by eapply while_body_bfs_inv.
Qed.

Lemma while_loop_queue depth D fuel : ∀ st st',
  while_loop U fuel depth D st = Some st' → queue st' = [].
Proof.
  induction fuel as [|fuel IH]; intros st st'; simpl; unfold while_body at 1;
    destruct (queue st) as [|[cur d] rest] eqn:Hq.
  - by intros [= <-].
  - by case_decide.
  - by intros [= <-].
  - case_decide; apply IH.
Qed.

(** What holds of the final state of [generate_graph]. *)
Lemma generate_graph_state_final fuel start depth D st :
  generate_graph_state U fuel start depth D = Some st →
  bfs_inv U (normalize_phrase U start) depth D st ∧ queue st = [] ∧
  visited st !! normalize_phrase U start = Some 0%Z.
Proof.
  unfold generate_graph_state. intros Hrun. split_and!.
  - eapply rtc_while_step_bfs_inv; [by eapply while_loop_rtc|].
    apply initial_state_bfs_inv.
  - by eapply while_loop_queue.
  - eapply lookup_weaken; [|eapply rtc_while_step_visited, while_loop_rtc, Hrun].
    apply lookup_singleton_eq.
Qed.

Section Final.

Context (s0 : str) (depth : Z) (D : gset str) (st : bfs_state).
Hypothesis Hinv : bfs_inv U s0 depth D st.
Hypothesis Hqueue : queue st = [].
Hypothesis Hstart : visited st !! s0 = Some 0%Z.

Lemma final_range p k :
  visited st !! p = Some k → (0 ≤ k ≤ Z.max 0 depth)%Z.
Proof. destruct Hinv as (_ & (_ & _ & Hr) & _). apply Hr. Qed.

Lemma final_expanded u :
  u ∈ expanded st ↔ ∃ d, visited st !! u = Some d ∧ (d < depth)%Z.
Proof.
  destruct Hinv as (_ & _ & _ & (Hcov & Hbel & _)). split; [apply Hbel|].
  intros (d & Hd & Hlt). destruct (Hcov u d Hd) as [?|[Hin|?]]; [done | | lia].
  rewrite Hqueue in Hin. by apply elem_of_nil in Hin.
Qed.

Lemma final_edges u v :
  (u, v) ∈ edges (G st) ↔
  ∃ d, visited st !! u = Some d ∧ (d < depth)%Z ∧
       v ∈ get_neighbors U u D ∧ visited st !! v = Some (d + 1)%Z.
Proof.
  destruct Hinv as ((Hlay & _ & _) & _ & (Hedge & _) & (_ & Hbel & Hcl)). split.
  - intros Huv. destruct (Hlay u v Huv) as (d & Hu & Hv).
    destruct (Hedge u v Huv) as [Hnb Hexp].
    destruct (Hbel u Hexp) as (d' & Hu' & Hlt).
    rewrite Hu in Hu'. injection Hu' as <-. by exists d.
  - intros (d & Hu & Hlt & Hnb & Hv).
    assert (u ∈ expanded st) as Hexp by (apply final_expanded; eauto).
    destruct (Hcl u Hexp) as (du & Hu' & Hall).
    rewrite Hu in Hu'. injection Hu' as <-.
    destruct (Hall v Hnb) as (m & Hm & _ & Hyes).
    rewrite Hv in Hm. injection Hm as <-. by apply Hyes.
Qed.

Lemma final_parent v k :
  visited st !! v = Some k →
  (v = s0 ∧ k = 0%Z) ∨
  ∃ u, (u, v) ∈ edges (G st) ∧ visited st !! u = Some (k - 1)%Z ∧ (0 < k)%Z.
Proof.
  destruct Hinv as (_ & _ & (_ & Hpar) & _). intros Hv.
  destruct (Hpar v k Hv) as [?|(u & Huv & Hu)]; [by left|].
  right. exists u. split_and!; [done | done |].
  apply final_range in Hu. lia.
Qed.

Lemma final_depth_0 v : visited st !! v = Some 0%Z ↔ v = s0.
Proof.
  split; [|by intros ->]. intros Hv.
  destruct (final_parent v 0 Hv) as [[? _]|(u & _ & _ & ?)]; [done | lia].
Qed.

Lemma final_reachable n : ∀ v k,
  Z.to_nat k = n → visited st !! v = Some k → nsteps (edge (G st)) n s0 v.
Proof.
  induction n as [|n IH]; intros v k Hn Hv;
    destruct (final_parent v k Hv) as [[-> ->]|(u & Huv & Hu & Hpos)]; try lia.
  - constructor.
  - eapply nsteps_r; [|exact Huv]. apply (IH u (k - 1)%Z); [lia | done].
Qed.

Lemma nsteps_edge_chain n v : nsteps (edge (G st)) n s0 v → chain U D s0 n v.
Proof.
  destruct Hinv as (_ & _ & (Hedge & _) & _).
  revert v. induction n as [|n IH]; intros v.
  - intros H. inversion H; subst. constructor.
  - intros H. apply nsteps_inv_r in H as (u & Hu & Huv).
    eapply chain_step; [by apply IH | by apply Hedge].
Qed.

Lemma final_chain_visited n v :
  chain U D s0 n v → (Z.of_nat n ≤ Z.max 0 depth)%Z →
  ∃ k, visited st !! v = Some k ∧ (k ≤ Z.of_nat n)%Z.
Proof.
  destruct Hinv as (_ & _ & _ & (_ & _ & Hcl)).
  induction 1 as [|n v w Hch IH Hw]; intros Hle.
  - exists 0%Z. split; [done | lia].
  - destruct IH as (k & Hv & Hk); [lia|].
    assert (v ∈ expanded st) as Hexp by (apply final_expanded; exists k; split; [done | lia]).
    destruct (Hcl v Hexp) as (dv & Hv' & Hall).
    rewrite Hv in Hv'. injection Hv' as <-.
    destruct (Hall w Hw) as (m & Hm & Hmle & _). exists m. split; [done | lia].
Qed.

Lemma final_shortest v k :
  visited st !! v = Some k ↔
  (0 ≤ k ≤ Z.max 0 depth)%Z ∧ chain U D s0 (Z.to_nat k) v ∧
  ∀ n, chain U D s0 n v → (k ≤ Z.of_nat n)%Z.
Proof.
  split.
  - intros Hv. pose proof (final_range v k Hv) as Hr. split_and!; [lia | lia | |].
    + apply nsteps_edge_chain. by eapply final_reachable.
    + intros n Hch. destruct (decide (Z.of_nat n ≤ Z.max 0 depth)%Z) as [Hn|Hn]; [|lia].
      destruct (final_chain_visited n v Hch Hn) as (k' & Hv' & Hk').
      rewrite Hv in Hv'. injection Hv' as <-. done.
  - intros (Hr & Hch & Hmin).
    destruct (final_chain_visited _ v Hch) as (k' & Hv' & Hk'); [lia|].
    pose proof (final_range v k' Hv') as Hr'.
    assert (chain U D s0 (Z.to_nat k') v) as Hch'
      by (apply nsteps_edge_chain; by eapply final_reachable).
    apply Hmin in Hch'. rewrite Hv'. f_equal. lia.
Qed.

Lemma final_nodes v :
  v ∈ nodes (G st) ↔ ∃ n, (Z.of_nat n ≤ Z.max 0 depth)%Z ∧ chain U D s0 n v.
Proof.
  destruct Hinv as ((_ & _ & Hn) & _). rewrite Hn, elem_of_dom. split.
  - intros [k Hv]. apply final_shortest in Hv as (Hr & Hch & _).
    exists (Z.to_nat k). split; [lia | done].
  - intros (n & Hle & Hch).
    destruct (final_chain_visited n v Hch Hle) as (k & Hv & _). by exists k.
Qed.



End Final.


End GraphFacts.


(** ** Further lemmas *)

Section MoreFacts.

Context (U : unicode_db).

(** *** Phrases *)

Lemma isspace_ascii_lower c : isspace (ascii_lower c) = isspace c.
Proof.
  destruct (ascii_lower_spec c) as [[Hc ->]|[_ ->]]; [|done].
  rewrite !isspace_false by lia. done.
Qed.

Lemma split_from_fmap_lower (s : str) : ∀ tok : str,
  split_from (ascii_lower <$> tok) (ascii_lower <$> s) =
  (fmap ascii_lower : str → str) <$> split_from tok s.
Proof.
  induction s as [|c r IH]; intros tok; simpl.
  - by destruct tok.
  - rewrite isspace_ascii_lower. destruct (isspace c).
    + rewrite fmap_app. f_equal; [by destruct tok | apply (IH [])].
    + rewrite <- IH, fmap_app. done.
Qed.

Lemma split_lower p :
  ascii_only p → split (lower U p) = lower U <$> split p.
Proof.
  intros Hp. rewrite lower_ascii by done. unfold split.
  pose proof (split_from_fmap_lower p []) as Hsplit. simpl in Hsplit.
  rewrite Hsplit. apply Forall_fmap_ext. eapply Forall_impl; [by apply ascii_only_split|].
  intros w Hw. simpl. by rewrite lower_ascii.
Qed.

Lemma capitalize_fmap_lower (ws : list str) :
  Forall ascii_only ws →
  capitalize U <$> (lower U <$> ws) = capitalize U <$> ws.
Proof.
  intros H. rewrite <- list_fmap_compose. apply Forall_fmap_ext.
  eapply Forall_impl; [exact H|]. intros w Hw. simpl. by apply capitalize_lower.
Qed.

Lemma lower_fmap_capitalize (ws : list str) :
  Forall ascii_only ws →
  lower U <$> (capitalize U <$> ws) = lower U <$> ws.
Proof.
  intros H. rewrite <- list_fmap_compose. apply Forall_fmap_ext.
  eapply Forall_impl; [exact H|]. intros w Hw. simpl. by apply lower_capitalize.
Qed.

Lemma normalize_phrase_tokens p q :
  ascii_only p → ascii_only q →
  normalize_phrase U p = normalize_phrase U q ↔
  lower U <$> split p = lower U <$> split q.
Proof.
  intros Hp Hq. pose proof (ascii_only_split p Hp) as Hsp.
  pose proof (ascii_only_split q Hq) as Hsq. split; intros H.
  - apply (f_equal split) in H. rewrite !split_normalize_phrase in H.
    apply (f_equal (fmap (lower U))) in H.
    by rewrite !lower_fmap_capitalize in H.
  - unfold normalize_phrase.
    rewrite <- (capitalize_fmap_lower (split p)), H by done.
    by rewrite capitalize_fmap_lower.
Qed.

Lemma normalize_phrase_lower p :
  ascii_only p → normalize_phrase U (lower U p) = normalize_phrase U p.
Proof.
  intros Hp. apply normalize_phrase_tokens; [by apply ascii_only_lower | done |].
  rewrite split_lower by done. rewrite <- list_fmap_compose.
  apply list_fmap_ext. intros i w _. apply lower_idem.
Qed.

Lemma all_parts_valid_lower parts D :
  all_parts_valid U (lower U <$> parts) D = all_parts_valid U parts D.
Proof.
  induction parts as [|part rest IH]; [done|].
  rewrite fmap_cons. cbn [all_parts_valid]. by rewrite lower_idem, IH.
Qed.

Lemma is_valid_phrase_tokens_eq p q D :
  lower U <$> split p = lower U <$> split q →
  is_valid_phrase U p D = is_valid_phrase U q D.
Proof.
  intros H. unfold is_valid_phrase.
  rewrite <- (all_parts_valid_lower (split p)),
          <- (all_parts_valid_lower (split q)), H.
  destruct (split p) as [|a l], (split q) as [|b m]; try done.
Qed.

Lemma split_from_nil s : ∀ tok, split_from tok s = [] ↔ tok = [] ∧ blank s.
Proof.
  unfold blank. induction s as [|c r IH]; intros tok; simpl.
  - destruct tok; split; try done. by intros [? _].
  - rewrite Forall_cons. destruct (isspace c) eqn:Hc.
    + rewrite app_nil, IH. destruct tok; simpl; split; try done; try tauto.
      * by intros [? _].
      * by intros [? _].
    + rewrite IH. split; [|by intros [_ [? _]]].
      intros [Htok _]. destruct tok; done.
Qed.

Lemma split_nil p : split p = [] ↔ blank p.
Proof. unfold split. rewrite split_from_nil. tauto. Qed.

Lemma join_nil (ws : list str) :
  Forall is_token ws → (join [space] ws = [] ↔ ws = []).
Proof.
  intros Hws. split; [|by intros ->].
  destruct ws as [|w ws]; [done|]. apply Forall_cons in Hws as [[Hne _] _].
  destruct ws; simpl; [done|]. destruct w; done.
Qed.

Lemma normalize_phrase_nil p : normalize_phrase U p = [] ↔ blank p.
Proof.
  rewrite <- split_nil. unfold normalize_phrase. rewrite join_nil.
  - split; [apply fmap_nil_inv | by intros ->].
  - apply Forall_fmap. eapply Forall_impl; [apply split_tokens|].
    intros w Hw. by apply is_token_capitalize.
Qed.

Lemma length_join_cons w (ws : list str) :
  length (join [space] (w :: ws)) ≤ length w + 1 + length (join [space] ws).
Proof.
  destruct ws as [|w' ws]; [simpl; lia|].
  change (join [space] (w :: w' :: ws))
    with (w ++ [space] ++ join [space] (w' :: ws)).
  rewrite !length_app. simpl. lia.
Qed.

Lemma length_normalize_from s : ∀ tok,
  ascii_only tok → ascii_only s →
  length (join [space] (capitalize U <$> split_from tok s))
  ≤ length tok + length s.
Proof.
  unfold ascii_only at 2.
  induction s as [|c r IH]; intros tok Htok Hs; simpl.
  - destruct tok as [|a tok]; [simpl; lia|]. cbn [flush fmap list_fmap join].
    rewrite length_capitalize by done. lia.
  - apply Forall_cons in Hs as [Hc Hr]. destruct (isspace c).
    + assert (ascii_only []) as Hnil by constructor.
      specialize (IH [] Hnil Hr). simpl in IH.
      destruct tok as [|a tok]; simpl flush; [simpl; lia|].
      rewrite fmap_app. cbn [fmap list_fmap app].
      etrans; [apply length_join_cons|]. rewrite length_capitalize by done.
      simpl in *. lia.
    + etrans; [apply IH|]; [by apply Forall_app; split; [|constructor] | done |].
      rewrite length_app. simpl. lia.
Qed.

Lemma length_normalize_phrase p :
  ascii_only p → length (normalize_phrase U p) ≤ length p.
Proof. intros Hp. apply (length_normalize_from p []); [constructor | done]. Qed.

(** Two dictionaries with the same lower-case tokens. *)
Lemma all_parts_valid_agree parts D D' :
  (∀ w, is_token w → lower U w = w → w ∈ D ↔ w ∈ D') →
  Forall is_token parts →
  all_parts_valid U parts D = all_parts_valid U parts D'.
Proof.
  intros Hag. induction 1 as [|part rest Hpart _ IH]; [done|]. simpl.
  rewrite IH.
  specialize (Hag (lower U part) (is_token_lower U _ Hpart) (lower_idem U _)).
  repeat case_decide; tauto.
Qed.

Lemma is_valid_phrase_agree p D D' :
  (∀ w, is_token w → lower U w = w → w ∈ D ↔ w ∈ D') →
  is_valid_phrase U p D = is_valid_phrase U p D'.
Proof.
  intros Hag. unfold is_valid_phrase.
  rewrite (all_parts_valid_agree (split p) D D' Hag (split_tokens p)). done.
Qed.

Lemma is_valid_phrase_mono p D D' :
  D ⊆ D' → is_valid_phrase U p D = true → is_valid_phrase U p D' = true.
Proof.
  intros Hsub. rewrite !is_valid_phrase_spec. intros [Hne Hall]. split; [done|].
  eapply Forall_impl; [exact Hall|]. intros w Hw. by apply Hsub.
Qed.

(** *** [strip] and the word lists *)

Lemma blank_app s t : blank s → blank t → blank (s ++ t).
Proof. unfold blank. intros. by apply Forall_app. Qed.

Lemma blank_app_inv l r : blank (l ++ r) → blank l ∧ blank r.
Proof. unfold blank. by intros ?%Forall_app. Qed.

Lemma lstrip_blank_app pre s : blank pre → lstrip (pre ++ s) = lstrip s.
Proof.
  unfold blank. induction pre as [|c r IH]; [done|]. simpl.
  intros [Hc Hr]%Forall_cons. rewrite Hc. by apply IH.
Qed.

Lemma lstrip_token w s : is_token w → lstrip (w ++ s) = w ++ s.
Proof.
  intros [Hne Hbf]. destruct w as [|c r]; [done|]. destruct Hbf as [Hc _].
  simpl. by rewrite Hc.
Qed.

Lemma rstrip_blank post : blank post → rstrip post = [].
Proof.
  unfold blank. induction post as [|c r IH]; [done|]. simpl.
  intros [Hc Hr]%Forall_cons. by rewrite IH, Hc.
Qed.

Lemma rstrip_blank_free_app w post :
  blank_free w → blank post → rstrip (w ++ post) = w.
Proof.
  intros Hbf Hpost. induction w as [|c r IH].
  - by apply rstrip_blank.
  - destruct Hbf as [Hc Hr]. simpl. rewrite IH by done.
    rewrite Hc. by destruct r.
Qed.

Lemma strip_token pre w post :
  blank pre → is_token w → blank post → strip (pre ++ w ++ post) = w.
Proof.
  intros Hpre Hw Hpost. unfold strip.
  rewrite lstrip_blank_app, lstrip_token by done.
  apply rstrip_blank_free_app; [apply Hw | done].
Qed.

Lemma elem_of_add_lines lines : ∀ acc x,
  x ∈ add_lines U lines acc ↔
  x ∈ acc ∨ ∃ line, line ∈ lines ∧ x = lower U (strip line).
Proof.
  unfold add_lines. induction lines as [|l lines IH]; intros acc x; simpl.
  - split; [by left|]. intros [?|(line & Hl & _)]; [done|]. by apply elem_of_nil in Hl.
  - rewrite IH, elem_of_union, elem_of_singleton. split.
    + intros [[?| ->]|(line & Hl & ->)].
      * by left.
      * right. exists l. split; [left | done].
      * right. exists line. split; [by right | done].
    + intros [?|(line & Hl & ->)]; [by left; left|].
      apply elem_of_cons in Hl as [-> |Hl]; [left; by right|].
      right. by exists line.
Qed.

Lemma elem_of_load_words ws ns x :
  x ∈ load_words U ws ns ↔ ∃ line, line ∈ ws ++ ns ∧ x = lower U (strip line).
Proof.
  unfold load_words. rewrite !elem_of_add_lines. split.
  - intros [[Hx|(line & Hl & ->)]|(line & Hl & ->)].
    + by apply not_elem_of_empty in Hx.
    + exists line. split; [apply elem_of_app; by left | done].
    + exists line. split; [apply elem_of_app; by right | done].
  - intros (line & Hl & ->). apply elem_of_app in Hl as [Hl|Hl].
    + left. right. by exists line.
    + right. by exists line.
Qed.

(** *** The neighbour set *)

Lemma produced_mono lp D D' x :
  D ⊆ D' → produced U lp D x → produced U lp D' x.
Proof.
  intros Hsub (c & Hc & Hv & ->). exists c. split_and!; [done | | done].
  by eapply is_valid_phrase_mono.
Qed.

Lemma get_neighbors_mono p D D' :
  D ⊆ D' → get_neighbors U p D ⊆ get_neighbors U p D'.
Proof.
  intros Hsub x. rewrite !elem_of_get_neighbors. intros [Hne Hx].
  split; [done | by eapply produced_mono].
Qed.

Lemma get_neighbors_agree p D D' :
  (∀ w, is_token w → lower U w = w → w ∈ D ↔ w ∈ D') →
  get_neighbors U p D = get_neighbors U p D'.
Proof.
  intros Hag. apply set_eq. intros x. rewrite !elem_of_get_neighbors.
  unfold produced. setoid_rewrite (is_valid_phrase_agree _ D D' Hag). done.
Qed.

Lemma get_neighbors_case p q D :
  ascii_only p → ascii_only q → lower U p = lower U q →
  get_neighbors U p D = get_neighbors U q D.
Proof.
  intros Hp Hq H. unfold get_neighbors.
  by rewrite <- (normalize_phrase_lower p), <- (normalize_phrase_lower q), H.
Qed.

Lemma get_neighbors_length p D x :
  ascii_only p → x ∈ get_neighbors U p D → length x ≤ length p + 1.
Proof.
  intros Hp. rewrite elem_of_get_neighbors. intros [_ (c & Hc & _ & ->)].
  assert (ascii_only c) as Hac
    by (eapply candidate_ascii; [by apply ascii_only_lower | done]).
  etrans; [by apply length_normalize_phrase|].
  etrans; [by apply candidate_length|]. by rewrite length_lower.
Qed.

Lemma get_neighbors_empty_dict p : get_neighbors U p ∅ = ∅.
Proof.
  apply set_eq. intros x. rewrite elem_of_get_neighbors. split; [|set_solver].
  intros [_ (c & _ & Hv & _)]. apply is_valid_phrase_spec in Hv as [Hne Hall].
  destruct (split c) as [|w ws]; [done|]. apply Forall_cons in Hall as [Hw _].
  by apply not_elem_of_empty in Hw.
Qed.

(** *** Blank phrases and unusable entries *)

Lemma blank_free_forallb w :
  forallb (λ c, negb (isspace c)) w = true ↔ blank_free w.
Proof.
  induction w as [|c r IH]; simpl; [done|].
  rewrite andb_true_iff, IH, negb_true_iff. done.
Qed.

Lemma usable_spec w : usable U w = true ↔ is_token w ∧ lower U w = w.
Proof.
  unfold usable, is_token.
  rewrite !andb_true_iff, !bool_decide_eq_true, blank_free_forallb. tauto.
Qed.

Lemma usable_agree (D : gset str) w :
  is_token w → lower U w = w → w ∈ filter (λ w, usable U w = true) D ↔ w ∈ D.
Proof.
  intros Ht Hl. rewrite elem_of_filter, usable_spec. tauto.
Qed.

Lemma split_from_blank_rest r : ∀ tok, blank r → split_from tok r = flush tok.
Proof.
  unfold blank. induction r as [|c r IH]; intros tok; simpl; [done|].
  intros [Hc Hr]%Forall_cons. rewrite Hc, (IH []) by done.
  simpl. by rewrite app_nil_r.
Qed.

Lemma split_blank_app l s : blank l → split (l ++ s) = split s.
Proof.
  unfold split, blank. induction l as [|c l IH]; [done|].
  simpl. intros [Hc Hl]%Forall_cons. rewrite Hc. simpl. by apply IH.
Qed.

Lemma split_letter_in_blanks l b r :
  blank l → blank r → isspace b = false → split (l ++ b :: r) = [[b]].
Proof.
  intros Hl Hr Hb. rewrite split_blank_app by done. unfold split. simpl.
  rewrite Hb. simpl. by rewrite split_from_blank_rest.
Qed.

Lemma get_neighbors_of_blank p D x :
  blank p →
  x ∈ get_neighbors U p D ↔
  ∃ b, letter b ∧ [b] ∈ D ∧ x = [ascii_upper b].
Proof.
  intros Hp. assert (lower U p = p) as Hlow by by apply lower_blank.
  assert (normalize_phrase U p = []) as Hnp by by apply normalize_phrase_nil.
  assert (∀ l b r, blank l → blank r → letter b →
            (is_valid_phrase U (l ++ b :: r) D = true ↔ [b] ∈ D) ∧
            normalize_phrase U (l ++ b :: r) = [ascii_upper b]) as Hone.
  { intros l b r Hl Hr (Hb & Hsp & Hlb & _)%letter_facts.
    assert (ascii_only [b]) as Hab by (by constructor).
    split.
    - rewrite is_valid_phrase_spec, split_letter_in_blanks by done.
      rewrite Forall_singleton, lower_ascii by done. simpl. rewrite Hlb.
      naive_solver.
    - unfold normalize_phrase. rewrite split_letter_in_blanks by done.
      simpl. unfold title_with. by destruct (N.ltb_spec b 128); [|lia]. }
  rewrite elem_of_get_neighbors, Hnp, Hlow. unfold produced. split.
  - intros [_ (c & Hc & Hv & ->)].
    destruct Hc as [l a r Hl|l a b r Hl _ Hb _|l b r Hl Hb]; rewrite Hl in Hp.
    + apply blank_app_inv in Hp as [Hbl Hbr].
      apply Forall_cons in Hbr as [_ Hbr].
      apply is_valid_phrase_spec in Hv as [Hne _]. exfalso. apply Hne.
      apply split_nil. by apply blank_app.
    + apply blank_app_inv in Hp as [Hbl Hbr].
      apply Forall_cons in Hbr as [_ Hbr].
      destruct (Hone l b r Hbl Hbr Hb) as [Hiff Hn]. exists b.
      split_and!; [done | by apply Hiff | done].
    + apply blank_app_inv in Hp as [Hbl Hbr].
      destruct (Hone l b r Hbl Hbr Hb) as [Hiff Hn]. exists b.
      split_and!; [done | by apply Hiff | done].
  - intros (b & Hb & HbD & ->).
    assert (blank []) as He by constructor.
    destruct (Hone [] b p He Hp Hb) as [Hiff Hn]. split; [done|].
    exists ([] ++ b :: p).
    split_and!; [by apply candidate_insert | by apply Hiff | done].
Qed.

(** *** Depth bounds *)

Lemma generate_graph_skip fuel p depth D :
  (depth ≤ 0)%Z →
  generate_graph U (S fuel) p depth D =
  Some (DiGraph {[ normalize_phrase U p ]} ∅).
Proof.
  intros Hd. unfold generate_graph, generate_graph_state.
  rewrite (while_loop_step U _ _ _ _
             (BfsState (add_node (normalize_phrase U p) empty_graph) []
                       {[ normalize_phrase U p := 0%Z ]} [])).
  - destruct fuel; simpl; unfold add_node; simpl; by rewrite (left_id_L ∅ (∪)).
  - unfold while_body. simpl. by case_decide.
Qed.

Lemma final_monotone s0 D depth1 depth2 st1 st2 :
  bfs_inv U s0 depth1 D st1 → queue st1 = [] → visited st1 !! s0 = Some 0%Z →
  bfs_inv U s0 depth2 D st2 → queue st2 = [] → visited st2 !! s0 = Some 0%Z →
  (depth1 ≤ depth2)%Z →
  visited st1 ⊆ visited st2 ∧ nodes (G st1) ⊆ nodes (G st2) ∧
  edges (G st1) ⊆ edges (G st2).
Proof.
  intros H1 Hq1 Hs1 H2 Hq2 Hs2 Hle.
  assert (visited st1 ⊆ visited st2) as Hsub.
  { apply map_subseteq_spec. intros v k Hv.
    apply (final_shortest U s0 depth1 D st1 H1 Hq1 Hs1) in Hv as (Hr & Hch & Hmin).
    apply (final_shortest U s0 depth2 D st2 H2 Hq2 Hs2).
    split_and!; [lia | lia | done | done]. }
  split_and!; [done | |].
  - destruct H1 as ((_ & _ & Hn1) & _), H2 as ((_ & _ & Hn2) & _).
    rewrite Hn1, Hn2. by apply subseteq_dom.
  - intros [u v] Huv.
    apply (final_edges U s0 depth1 D st1 H1 Hq1) in Huv as (d & Hu & Hlt & Hnb & Hv).
    apply (final_edges U s0 depth2 D st2 H2 Hq2). exists d.
    split_and!; [by eapply lookup_weaken | lia | done | by eapply lookup_weaken].
Qed.

(** From an ASCII phrase neighbour steps reach ASCII phrases only, each in
    normal form and, the origin apart, valid. *)
Lemma chain_ascii D s0 n v :
  ascii_only s0 → normalize_phrase U s0 = s0 → chain U D s0 n v →
  ascii_only v ∧ normalize_phrase U v = v ∧
  (v = s0 ∨ is_valid_phrase U v D = true).
Proof.
  intros Hs0 Hn0. induction 1 as [|n v w _ (Hv & _ & _) Hw].
  - split_and!; [done | done | by left].
  - destruct (get_neighbors_ascii U v D w Hv Hw) as (? & ? & ?).
    split_and!; [done | done | by right].
Qed.

End MoreFacts.


(** ** The claims of the specification *)




(** C8. [is_valid_phrase] returns [True] exactly when splitting the phrase
    yields at least one token and every token, lower-cased, is in the
    dictionary; with zero tokens it returns [False].  The function is
    total: no error is raised on any path. *)
Theorem is_valid_phrase_tokens (U : unicode_db) (p : str) (D : gset str) :
  is_valid_phrase U p D = true ↔
  split p ≠ [] ∧ Forall (λ part, lower U part ∈ D) (split p).
Proof. apply is_valid_phrase_spec. Qed.




(** C2. No self-loop: the normalised input is never among its own
    neighbours. *)
Theorem get_neighbors_no_self_loop (U : unicode_db) (p : str) (D : gset str) :
  normalize_phrase U p ∉ get_neighbors U p D.
Proof. unfold get_neighbors. cbv zeta. case_decide; set_solver. Qed.







(** C6. With depth bound 0 and any dictionary, [generate_graph] returns
    (given fuel for one iteration) the graph with the single node
    [normalize_phrase p] and no edge. *)
Theorem generate_graph_depth_0 (U : unicode_db) (fuel : nat) (p : str)
    (D : gset str) :
  ∃ g, generate_graph U (S fuel) p 0 D = Some g ∧
       nodes g = {[ normalize_phrase U p ]} ∧ edges g = ∅ ∧
       size (nodes g) = 1 ∧ size (edges g) = 0.
Proof.
  exists (DiGraph {[ normalize_phrase U p ]} ∅).
  split_and!; cbn [nodes edges];
    [| done | done | apply size_singleton | apply size_empty].
  by apply generate_graph_skip.
Qed.

(** C1. In the final state of [generate_graph] every edge [(u, v)] joins a
    phrase of recorded depth [d] to a phrase of recorded depth [d + 1]; so
    no path of the graph returns to its origin, and every node has a
    recorded depth.  A recorded depth never changes: neither one pass of
    the [for] body nor any number of iterations of the [while] loop alters
    an entry of the depth map. *)
Theorem generate_graph_layered (U : unicode_db) (fuel : nat) (start : str)
    (depth : Z) (D : gset str) (st : bfs_state) :
  generate_graph_state U fuel start depth D = Some st →
  (∀ u v, (u, v) ∈ edges (G st) →
     ∃ d, visited st !! u = Some d ∧ visited st !! v = Some (d + 1)%Z) ∧
  (∀ u, ¬ tc (edge (G st)) u u) ∧
  nodes (G st) = dom (visited st) ∧
  visited st !! normalize_phrase U start = Some 0%Z ∧
  (∀ s cur d nb p k,
     visited s !! p = Some k → visited (visit cur d s nb) !! p = Some k) ∧
  (∀ s s' p k,
     rtc (while_step U depth D) s s' →
     visited s !! p = Some k → visited s' !! p = Some k).
Proof.
  intros Hrun. apply while_loop_rtc in Hrun.
  pose proof (rtc_while_step_inv U _ _ _ _ Hrun (initial_state_inv _))
    as (Hlay & _ & Hnodes).
  split_and!.
  - exact Hlay.
  - intros u Hu. destruct (layered_path _ _ _ Hlay Hu) as (du & dv & H1 & H2 & Hlt).
    rewrite H1 in H2. injection H2 as <-. lia.
  - exact Hnodes.
  - eapply lookup_weaken; [|by eapply rtc_while_step_visited].
    simpl. apply lookup_singleton_eq.
  - intros s cur d nb p k Hp. eapply lookup_weaken; [exact Hp | apply visit_visited].
  - intros s s' p k Hss Hp.
    eapply lookup_weaken; [exact Hp | by eapply rtc_while_step_visited].
Qed.

Lemma generate_graph_layered_witness :
  ∃ st, generate_graph_state fragment 6 (py "Cat") 1 D_cat = Some st ∧
        (∀ u v, (u, v) ∈ edges (G st) →
           ∃ d, visited st !! u = Some d ∧ visited st !! v = Some (d + 1)%Z) ∧
        (∀ u, ¬ tc (edge (G st)) u u).
Proof.
  destruct (generate_graph_state fragment 6 (py "Cat") 1 D_cat) as [st|] eqn:Hst;
    [|vm_compute in Hst; discriminate].
  exists st. split; [reflexivity|].
  destruct (generate_graph_layered fragment 6 (py "Cat") 1 D_cat st Hst)
    as (H1 & H2 & _).
  split; [exact H1 | exact H2].
Defined.

(** C9. For every start phrase, depth bound and dictionary the loop of
    [generate_graph] terminates: some amount of fuel, and every larger
    one, yields a final state, whose graph is a finite set of nodes and a
    finite set of edges; and the phrases on which [get_neighbors] was
    called are pairwise distinct. *)
Theorem generate_graph_terminates (U : unicode_db) (start : str) (depth : Z)
    (D : gset str) :
  ∃ fuel st,
    (∀ extra, generate_graph_state U (fuel + extra) start depth D = Some st) ∧
    (∀ extra, generate_graph U (fuel + extra) start depth D = Some (G st)) ∧
    queue st = [] ∧
    set_finite (nodes (G st)) ∧ set_finite (edges (G st)) ∧
    NoDup (expanded st).
Proof.
  destruct (while_loop_terminates U depth D (S (Z.to_nat depth))
              (initial_state (normalize_phrase U start))) as (fuel & st & Hrun).
  { constructor; [simpl; lia | constructor]. }
  assert (∀ extra,
            generate_graph_state U (fuel + extra) start depth D = Some st)
    as Hall.
  { intros extra. unfold generate_graph_state.
    eapply while_loop_mono; [exact Hrun | lia]. }
  exists fuel, st. split_and!.
  - exact Hall.
  - intros extra. unfold generate_graph. by rewrite Hall.
  - by eapply while_loop_queue.
  - apply fin_set_finite.
  - apply fin_set_finite.
  - apply while_loop_rtc in Hrun.
    pose proof (rtc_while_step_expand_inv U _ _ _ _ Hrun
                  (initial_state_expand_inv _)) as [Hnd _].
    by apply NoDup_app in Hnd as (? & _ & _).
Qed.

(** C5. The worked example: over the dictionary
    {cat, bat, cot, car, at, cats} the neighbours of "Cat" are exactly
    At, Bat, Cot, Car and Cats, and the graph built from "Cat" with depth
    bound 1 has the 6 nodes Cat, At, Bat, Cot, Car, Cats and the 5 edges
    from Cat to each of the other five. *)
Theorem cat_example (U : unicode_db) (extra : nat) :
  get_neighbors U (py "Cat") D_cat =
    {[ py "At"; py "Bat"; py "Cot"; py "Car"; py "Cats" ]} ∧
  ∃ g, generate_graph U (6 + extra) (py "Cat") 1 D_cat = Some g ∧
       nodes g = {[ py "Cat"; py "At"; py "Bat"; py "Cot"; py "Car";
                    py "Cats" ]} ∧
       size (nodes g) = 6 ∧
       edges g = {[ (py "Cat", py "At"); (py "Cat", py "Bat");
                    (py "Cat", py "Cot"); (py "Cat", py "Car");
                    (py "Cat", py "Cats") ]} ∧
       size (edges g) = 5 ∧
       (∀ e, e ∈ edges g → e.1 = py "Cat").
Proof.
  split; [vm_compute; reflexivity|].
  exists (DiGraph {[ py "Cat"; py "At"; py "Bat"; py "Cot"; py "Car";
                     py "Cats" ]}
                  {[ (py "Cat", py "At"); (py "Cat", py "Bat");
                     (py "Cat", py "Cot"); (py "Cat", py "Car");
                     (py "Cat", py "Cats") ]}).
  cbn [nodes edges]. split_and!.
  - apply (generate_graph_mono U 6); [vm_compute; reflexivity | lia].
  - reflexivity.
  - vm_compute; reflexivity.
  - reflexivity.
  - vm_compute; reflexivity.
  - intros [u v] He. set_unfold in He. simpl. naive_solver.
Qed.


(** ** Further properties of the code *)

(** X1. Two phrases of ASCII characters have the same normal form exactly
    when their tokens agree up to case: the blanks between tokens and the
    casing of the input play no role. *)
Theorem normalize_phrase_same_tokens (U : unicode_db) (p q : str) :
  ascii_only p → ascii_only q →
  normalize_phrase U p = normalize_phrase U q ↔
  lower U <$> split p = lower U <$> split q.
Proof. apply normalize_phrase_tokens. Qed.

Lemma normalize_phrase_same_tokens_witness :
  ascii_only (py "cat  BAT") ∧ ascii_only (py " Cat bat") ∧
  (normalize_phrase fragment (py "cat  BAT")
   = normalize_phrase fragment (py " Cat bat") ↔
   lower fragment <$> split (py "cat  BAT")
   = lower fragment <$> split (py " Cat bat")).
Proof.
  assert (ascii_only (py "cat  BAT")) as Hp
    by (apply (bool_decide_unpack _); vm_compute; exact I).
  assert (ascii_only (py " Cat bat")) as Hq
    by (apply (bool_decide_unpack _); vm_compute; exact I).
  split; [exact Hp|]. split; [exact Hq|].
  exact (normalize_phrase_same_tokens fragment _ _ Hp Hq).
Defined.

(** X2. Phrases of ASCII characters with the same normal form are valid
    together. *)
Theorem is_valid_phrase_same_node (U : unicode_db) (p q : str)
    (D : gset str) :
  ascii_only p → ascii_only q →
  normalize_phrase U p = normalize_phrase U q →
  is_valid_phrase U p D = is_valid_phrase U q D.
Proof.
  intros Hp Hq H. apply is_valid_phrase_tokens_eq.
  by apply normalize_phrase_tokens.
Qed.

Lemma is_valid_phrase_same_node_witness :
  ascii_only (py "cat  BAT") ∧ ascii_only (py " Cat bat") ∧
  normalize_phrase fragment (py "cat  BAT")
  = normalize_phrase fragment (py " Cat bat") ∧
  is_valid_phrase fragment (py "cat  BAT") D_cat
  = is_valid_phrase fragment (py " Cat bat") D_cat.
Proof.
  assert (ascii_only (py "cat  BAT")) as Hp
    by (apply (bool_decide_unpack _); vm_compute; exact I).
  assert (ascii_only (py " Cat bat")) as Hq
    by (apply (bool_decide_unpack _); vm_compute; exact I).
  assert (normalize_phrase fragment (py "cat  BAT")
          = normalize_phrase fragment (py " Cat bat")) as H
    by (vm_compute; reflexivity).
  split; [exact Hp|]. split; [exact Hq|]. split; [exact H|].
  exact (is_valid_phrase_same_node fragment _ _ D_cat Hp Hq H).
Defined.

(** X3. The normal form is the empty string exactly for a phrase made of
    blanks only (the empty phrase included). *)
Theorem normalize_phrase_blank (U : unicode_db) (p : str) :
  normalize_phrase U p = [] ↔ blank p.
Proof. apply normalize_phrase_nil. Qed.

(** X4. Normalising a phrase of ASCII characters never makes it longer. *)
Theorem normalize_phrase_shorter (U : unicode_db) (p : str) :
  ascii_only p → length (normalize_phrase U p) ≤ length p.
Proof. apply length_normalize_phrase. Qed.

Lemma normalize_phrase_shorter_witness :
  ascii_only (py "  heLLo   wORLD ") ∧
  length (normalize_phrase fragment (py "  heLLo   wORLD "))
  ≤ length (py "  heLLo   wORLD ").
Proof.
  assert (ascii_only (py "  heLLo   wORLD ")) as H
    by (apply (bool_decide_unpack _); vm_compute; exact I).
  split; [exact H | exact (normalize_phrase_shorter fragment _ H)].
Defined.

(** X5. Only the dictionary entries which are non-empty, blank-free and
    lower-case take part: dropping all other entries changes neither the
    validity of a phrase nor its neighbours. *)
Theorem dictionary_usable_entries (U : unicode_db) (p : str) (D : gset str) :
  is_valid_phrase U p (filter (λ w, usable U w = true) D)
  = is_valid_phrase U p D ∧
  get_neighbors U p (filter (λ w, usable U w = true) D) = get_neighbors U p D.
Proof.
  split.
  - apply is_valid_phrase_agree. intros w. apply usable_agree.
  - apply get_neighbors_agree. intros w. apply usable_agree.
Qed.

(** X6. The neighbour set, in full: [x] is returned exactly when it differs
    from the normal form of the input and is the normal form of a valid
    candidate, a candidate being the lower-cased input with one character
    deleted, one non-space character replaced by another letter, or one
    letter inserted. *)
Theorem get_neighbors_characterised (U : unicode_db) (p : str) (D : gset str)
    (x : str) :
  x ∈ get_neighbors U p D ↔
  x ≠ normalize_phrase U p ∧
  ∃ c, candidate (lower U p) c ∧ is_valid_phrase U c D = true ∧
       x = normalize_phrase U c.
Proof. apply elem_of_get_neighbors. Qed.

(** X7. A larger dictionary gives at least the same neighbours. *)
Theorem get_neighbors_monotone (U : unicode_db) (p : str) (D D' : gset str) :
  D ⊆ D' → get_neighbors U p D ⊆ get_neighbors U p D'.
Proof. apply get_neighbors_mono. Qed.

Lemma get_neighbors_monotone_witness :
  D_abc ⊆ D_abc ∪ D_cat ∧
  get_neighbors fragment (py "A B") D_abc
  ⊆ get_neighbors fragment (py "A B") (D_abc ∪ D_cat).
Proof.
  assert (D_abc ⊆ D_abc ∪ D_cat) as H
    by (apply (bool_decide_unpack _); vm_compute; exact I).
  split; [exact H | exact (get_neighbors_monotone fragment (py "A B") _ _ H)].
Defined.

(** X8. For phrases of ASCII characters the neighbour set does not depend
    on the casing of the input. *)
Theorem get_neighbors_ignores_case (U : unicode_db) (p q : str)
    (D : gset str) :
  ascii_only p → ascii_only q → lower U p = lower U q →
  get_neighbors U p D = get_neighbors U q D.
Proof. apply get_neighbors_case. Qed.

Lemma get_neighbors_ignores_case_witness :
  ascii_only (py "CAT") ∧ ascii_only (py "cAt") ∧
  lower fragment (py "CAT") = lower fragment (py "cAt") ∧
  get_neighbors fragment (py "CAT") D_cat
  = get_neighbors fragment (py "cAt") D_cat.
Proof.
  assert (ascii_only (py "CAT")) as Hp
    by (apply (bool_decide_unpack _); vm_compute; exact I).
  assert (ascii_only (py "cAt")) as Hq
    by (apply (bool_decide_unpack _); vm_compute; exact I).
  assert (lower fragment (py "CAT") = lower fragment (py "cAt")) as H
    by (vm_compute; reflexivity).
  split; [exact Hp|]. split; [exact Hq|]. split; [exact H|].
  exact (get_neighbors_ignores_case fragment _ _ D_cat Hp Hq H).
Defined.

(** X9. A neighbour of a phrase of ASCII characters is at most one
    character longer than the phrase. *)
Theorem get_neighbors_length_bound (U : unicode_db) (p : str) (D : gset str)
    (x : str) :
  ascii_only p → x ∈ get_neighbors U p D → length x ≤ length p + 1.
Proof. apply get_neighbors_length. Qed.

Lemma get_neighbors_length_bound_witness :
  ascii_only (py "Cat") ∧
  py "Cats" ∈ get_neighbors fragment (py "Cat") D_cat ∧
  length (py "Cats") ≤ length (py "Cat") + 1.
Proof.
  assert (ascii_only (py "Cat")) as Hp
    by (apply (bool_decide_unpack _); vm_compute; exact I).
  assert (py "Cats" ∈ get_neighbors fragment (py "Cat") D_cat) as H
    by (apply (bool_decide_unpack _); vm_compute; exact I).
  split; [exact Hp|]. split; [exact H|].
  exact (get_neighbors_length_bound fragment (py "Cat") D_cat (py "Cats") Hp H).
Defined.

(** X10. For an empty or all-blank phrase the neighbours are exactly the
    one-letter words of the dictionary, capitalised. *)
Theorem get_neighbors_blank_phrase (U : unicode_db) (p : str) (D : gset str)
    (x : str) :
  blank p →
  x ∈ get_neighbors U p D ↔
  ∃ b, letter b ∧ [b] ∈ D ∧ x = [ascii_upper b].
Proof. apply get_neighbors_of_blank. Qed.

Lemma get_neighbors_blank_phrase_witness :
  blank (py "  ") ∧
  (py "A" ∈ get_neighbors fragment (py "  ") D_abc ↔
   ∃ b, letter b ∧ [b] ∈ D_abc ∧ py "A" = [ascii_upper b]).
Proof.
  assert (blank (py "  ")) as H by (repeat constructor).
  split; [exact H|].
  exact (get_neighbors_blank_phrase fragment (py "  ") D_abc (py "A") H).
Defined.

(** X11. With an empty dictionary no phrase has a neighbour. *)
Theorem get_neighbors_empty_dictionary (U : unicode_db) (p : str) :
  get_neighbors U p ∅ = ∅.
Proof. apply get_neighbors_empty_dict. Qed.

(** X12. The loaded word set consists of the lines of the two files, each
    stripped of the blanks at its ends and lower-cased. *)
Theorem load_words_members (U : unicode_db)
    (words_lines names_lines : list str) (x : str) :
  x ∈ load_words U words_lines names_lines ↔
  ∃ line, line ∈ words_lines ++ names_lines ∧ x = lower U (strip line).
Proof. apply elem_of_load_words. Qed.

(** X13. A line holding one word, with blanks (such as the line end) around
    it, makes that word a valid phrase in any casing. *)
Theorem load_words_accepts (U : unicode_db)
    (words_lines names_lines : list str) (pre w post p : str) :
  blank pre → is_token w → blank post →
  pre ++ w ++ post ∈ words_lines ++ names_lines →
  lower U <$> split p = [lower U w] →
  is_valid_phrase U p (load_words U words_lines names_lines) = true.
Proof.
  intros Hpre Hw Hpost Hin Hp. apply is_valid_phrase_spec.
  destruct (split p) as [|t [|t' ts]] eqn:Hs; try done.
  injection Hp as Ht. split; [done|]. apply Forall_singleton.
  apply elem_of_load_words. exists (pre ++ w ++ post). split; [done|].
  by rewrite strip_token, Ht.
Qed.

Lemma load_words_accepts_witness :
  is_valid_phrase fragment (py "CAT")
    (load_words fragment [py "cat" ++ [10%N]] []) = true.
Proof.
  apply (load_words_accepts fragment _ _ [] (py "cat") [10%N]).
  - constructor.
  - split; [discriminate | repeat split].
  - repeat constructor.
  - left.
  - reflexivity.
Defined.

(** X14. A depth bound of zero or less gives the graph of the start node
    alone. *)
Theorem generate_graph_nonpositive_depth (U : unicode_db) (fuel : nat)
    (p : str) (depth : Z) (D : gset str) :
  (depth ≤ 0)%Z →
  generate_graph U (S fuel) p depth D =
  Some (DiGraph {[ normalize_phrase U p ]} ∅).
Proof. apply generate_graph_skip. Qed.

Lemma generate_graph_nonpositive_depth_witness :
  (-2 ≤ 0)%Z ∧
  generate_graph fragment 1 (py "cat") (-2) D_cat =
  Some (DiGraph {[ normalize_phrase fragment (py "cat") ]} ∅).
Proof.
  assert (-2 ≤ 0)%Z as H by lia.
  split; [exact H|].
  exact (generate_graph_nonpositive_depth fragment 0 (py "cat") (-2) D_cat H).
Defined.

(** X15. Every recorded depth lies between 0 and the depth bound, and the
    start node is the only node of depth 0. *)
Theorem generate_graph_depth_range (U : unicode_db) (fuel : nat) (start : str)
    (depth : Z) (D : gset str) (st : bfs_state) :
  generate_graph_state U fuel start depth D = Some st →
  (∀ p k, visited st !! p = Some k → (0 ≤ k ≤ Z.max 0 depth)%Z) ∧
  (∀ v, visited st !! v = Some 0%Z ↔ v = normalize_phrase U start).
Proof.
  intros (Hinv & Hq & Hs)%generate_graph_state_final. split.
  - intros p k. by eapply final_range.
  - intros v. by eapply final_depth_0.
Qed.

Lemma generate_graph_depth_range_witness :
  ∃ st, generate_graph_state fragment 6 (py "Cat") 1 D_cat = Some st ∧
        (∀ p k, visited st !! p = Some k → (0 ≤ k ≤ Z.max 0 1)%Z) ∧
        (∀ v, visited st !! v = Some 0%Z ↔
              v = normalize_phrase fragment (py "Cat")).
Proof.
  destruct (generate_graph_state fragment 6 (py "Cat") 1 D_cat) as [st|] eqn:Hst;
    [|vm_compute in Hst; discriminate].
  exists st. split; [reflexivity|].
  exact (generate_graph_depth_range fragment 6 (py "Cat") 1 D_cat st Hst).
Defined.

(** X16. The edge set, in full: [(u, v)] is an edge exactly when [u] has a
    recorded depth [d] below the bound, [v] is a neighbour of [u], and [v]
    has recorded depth [d + 1]. *)
Theorem generate_graph_edge_set (U : unicode_db) (fuel : nat) (start : str)
    (depth : Z) (D : gset str) (st : bfs_state) :
  generate_graph_state U fuel start depth D = Some st →
  ∀ u v, (u, v) ∈ edges (G st) ↔
    ∃ d, visited st !! u = Some d ∧ (d < depth)%Z ∧
         v ∈ get_neighbors U u D ∧ visited st !! v = Some (d + 1)%Z.
Proof.
  intros (Hinv & Hq & Hs)%generate_graph_state_final u v. by eapply final_edges.
Qed.

Lemma generate_graph_edge_set_witness :
  ∃ st, generate_graph_state fragment 6 (py "Cat") 1 D_cat = Some st ∧
        ∀ u v, (u, v) ∈ edges (G st) ↔
          ∃ d, visited st !! u = Some d ∧ (d < 1)%Z ∧
               v ∈ get_neighbors fragment u D_cat ∧
               visited st !! v = Some (d + 1)%Z.
Proof.
  destruct (generate_graph_state fragment 6 (py "Cat") 1 D_cat) as [st|] eqn:Hst;
    [|vm_compute in Hst; discriminate].
  exists st. split; [reflexivity|].
  exact (generate_graph_edge_set fragment 6 (py "Cat") 1 D_cat st Hst).
Defined.

(** X17. The recorded depth of a node is the length of a shortest chain of
    neighbour steps from the start node: [v] has recorded depth [k] exactly
    when [k] is within the bound, some chain of [k] steps leads from the
    start to [v], and no chain to [v] is shorter. *)
Theorem generate_graph_shortest_chain (U : unicode_db) (fuel : nat)
    (start : str) (depth : Z) (D : gset str) (st : bfs_state) :
  generate_graph_state U fuel start depth D = Some st →
  ∀ v k, visited st !! v = Some k ↔
    (0 ≤ k ≤ Z.max 0 depth)%Z ∧
    chain U D (normalize_phrase U start) (Z.to_nat k) v ∧
    ∀ n, chain U D (normalize_phrase U start) n v → (k ≤ Z.of_nat n)%Z.
Proof.
  intros (Hinv & Hq & Hs)%generate_graph_state_final v k. by eapply final_shortest.
Qed.

Lemma generate_graph_shortest_chain_witness :
  ∃ st, generate_graph_state fragment 6 (py "Cat") 1 D_cat = Some st ∧
        ∀ v k, visited st !! v = Some k ↔
          (0 ≤ k ≤ Z.max 0 1)%Z ∧
          chain fragment D_cat (normalize_phrase fragment (py "Cat"))
            (Z.to_nat k) v ∧
          ∀ n, chain fragment D_cat (normalize_phrase fragment (py "Cat")) n v →
               (k ≤ Z.of_nat n)%Z.
Proof.
  destruct (generate_graph_state fragment 6 (py "Cat") 1 D_cat) as [st|] eqn:Hst;
    [|vm_compute in Hst; discriminate].
  exists st. split; [reflexivity|].
  exact (generate_graph_shortest_chain fragment 6 (py "Cat") 1 D_cat st Hst).
Defined.

(** X18. The node set, in full: the phrases which a chain of neighbour
    steps no longer than the depth bound reaches from the start node. *)
Theorem generate_graph_node_set (U : unicode_db) (fuel : nat) (start : str)
    (depth : Z) (D : gset str) (st : bfs_state) :
  generate_graph_state U fuel start depth D = Some st →
  ∀ v, v ∈ nodes (G st) ↔
    ∃ n, (Z.of_nat n ≤ Z.max 0 depth)%Z ∧
         chain U D (normalize_phrase U start) n v.
Proof.
  intros (Hinv & Hq & Hs)%generate_graph_state_final v. by eapply final_nodes.
Qed.

Lemma generate_graph_node_set_witness :
  ∃ st, generate_graph_state fragment 6 (py "Cat") 1 D_cat = Some st ∧
        ∀ v, v ∈ nodes (G st) ↔
          ∃ n, (Z.of_nat n ≤ Z.max 0 1)%Z ∧
               chain fragment D_cat (normalize_phrase fragment (py "Cat")) n v.
Proof.
  destruct (generate_graph_state fragment 6 (py "Cat") 1 D_cat) as [st|] eqn:Hst;
    [|vm_compute in Hst; discriminate].
  exists st. split; [reflexivity|].
  exact (generate_graph_node_set fragment 6 (py "Cat") 1 D_cat st Hst).
Defined.

(** X19. Every node is reached from the start node along edges of the
    graph, in as many edges as its recorded depth. *)
Theorem generate_graph_reachable (U : unicode_db) (fuel : nat) (start : str)
    (depth : Z) (D : gset str) (st : bfs_state) :
  generate_graph_state U fuel start depth D = Some st →
  ∀ v k, visited st !! v = Some k →
    nsteps (edge (G st)) (Z.to_nat k) (normalize_phrase U start) v.
Proof.
  intros (Hinv & Hq & Hs)%generate_graph_state_final v k Hv.
  by eapply final_reachable.
Qed.

Lemma generate_graph_reachable_witness :
  ∃ st, generate_graph_state fragment 6 (py "Cat") 1 D_cat = Some st ∧
        ∀ v k, visited st !! v = Some k →
          nsteps (edge (G st)) (Z.to_nat k)
            (normalize_phrase fragment (py "Cat")) v.
Proof.
  destruct (generate_graph_state fragment 6 (py "Cat") 1 D_cat) as [st|] eqn:Hst;
    [|vm_compute in Hst; discriminate].
  exists st. split; [reflexivity|].
  exact (generate_graph_reachable fragment 6 (py "Cat") 1 D_cat st Hst).
Defined.

(** X20. The phrases on which [get_neighbors] was called are exactly the
    nodes whose recorded depth is below the depth bound. *)
Theorem generate_graph_expanded_set (U : unicode_db) (fuel : nat)
    (start : str) (depth : Z) (D : gset str) (st : bfs_state) :
  generate_graph_state U fuel start depth D = Some st →
  ∀ u, u ∈ expanded st ↔ ∃ d, visited st !! u = Some d ∧ (d < depth)%Z.
Proof.
  intros (Hinv & Hq & Hs)%generate_graph_state_final u. by eapply final_expanded.
Qed.

Lemma generate_graph_expanded_set_witness :
  ∃ st, generate_graph_state fragment 6 (py "Cat") 1 D_cat = Some st ∧
        ∀ u, u ∈ expanded st ↔ ∃ d, visited st !! u = Some d ∧ (d < 1)%Z.
Proof.
  destruct (generate_graph_state fragment 6 (py "Cat") 1 D_cat) as [st|] eqn:Hst;
    [|vm_compute in Hst; discriminate].
  exists st. split; [reflexivity|].
  exact (generate_graph_expanded_set fragment 6 (py "Cat") 1 D_cat st Hst).
Defined.

(** X21. For a start phrase of ASCII characters every node of the graph
    consists of ASCII characters and is in normal form, and every node
    other than the start node is valid under the dictionary. *)
Theorem generate_graph_nodes_valid (U : unicode_db) (fuel : nat)
    (start : str) (depth : Z) (D : gset str) (st : bfs_state) :
  ascii_only start →
  generate_graph_state U fuel start depth D = Some st →
  ∀ v, v ∈ nodes (G st) →
    ascii_only v ∧ normalize_phrase U v = v ∧
    (v = normalize_phrase U start ∨ is_valid_phrase U v D = true).
Proof.
  intros Hstart (Hinv & Hq & Hs)%generate_graph_state_final v Hv.
  apply (final_nodes U _ depth D st Hinv Hq Hs) in Hv as (n & _ & Hch).
  eapply chain_ascii; [| |exact Hch].
  - by apply ascii_only_normalize_phrase.
  - by apply normalize_phrase_idem.
Qed.

Lemma generate_graph_nodes_valid_witness :
  ascii_only (py "Zat") ∧
  ∃ st, generate_graph_state fragment 6 (py "Zat") 1 D_cat = Some st ∧
        ∀ v, v ∈ nodes (G st) →
          ascii_only v ∧ normalize_phrase fragment v = v ∧
          (v = normalize_phrase fragment (py "Zat") ∨
           is_valid_phrase fragment v D_cat = true).
Proof.
  assert (ascii_only (py "Zat")) as Hp
    by (apply (bool_decide_unpack _); vm_compute; exact I).
  split; [exact Hp|].
  destruct (generate_graph_state fragment 6 (py "Zat") 1 D_cat) as [st|] eqn:Hst;
    [|vm_compute in Hst; discriminate].
  exists st. split; [reflexivity|].
  exact (generate_graph_nodes_valid fragment 6 (py "Zat") 1 D_cat st Hp Hst).
Defined.

(** X22. Raising the depth bound only adds to the result: the depth map,
    the nodes and the edges for the smaller bound are kept. *)
Theorem generate_graph_monotone_in_depth (U : unicode_db) (fuel1 fuel2 : nat)
    (start : str) (depth1 depth2 : Z) (D : gset str) (st1 st2 : bfs_state) :
  generate_graph_state U fuel1 start depth1 D = Some st1 →
  generate_graph_state U fuel2 start depth2 D = Some st2 →
  (depth1 ≤ depth2)%Z →
  visited st1 ⊆ visited st2 ∧ nodes (G st1) ⊆ nodes (G st2) ∧
  edges (G st1) ⊆ edges (G st2).
Proof.
  intros (H1 & Hq1 & Hs1)%generate_graph_state_final
         (H2 & Hq2 & Hs2)%generate_graph_state_final Hle.
  by eapply final_monotone.
Qed.

Lemma generate_graph_monotone_in_depth_witness :
  ∃ st1 st2,
    generate_graph_state fragment 6 (py "Cat") 1 D_cat = Some st1 ∧
    generate_graph_state fragment 9 (py "Cat") 2 D_cat = Some st2 ∧
    (1 ≤ 2)%Z ∧
    visited st1 ⊆ visited st2 ∧ nodes (G st1) ⊆ nodes (G st2) ∧
    edges (G st1) ⊆ edges (G st2).
Proof.
  destruct (generate_graph_state fragment 6 (py "Cat") 1 D_cat) as [st1|] eqn:Hst1;
    [|vm_compute in Hst1; discriminate].
  destruct (generate_graph_state fragment 9 (py "Cat") 2 D_cat) as [st2|] eqn:Hst2;
    [|vm_compute in Hst2; discriminate].
  assert (1 ≤ 2)%Z as Hle by lia.
  exists st1, st2. split; [reflexivity|]. split; [reflexivity|]. split; [exact Hle|].
  exact (generate_graph_monotone_in_depth fragment 6 9 (py "Cat") 1 2 D_cat
           st1 st2 Hst1 Hst2 Hle).
Defined.
